(** * cinch-web frontend: session synchronisation engine

    A shallow embedding of the client-side session engine of the cinch-web
    frontend, and the properties its specification states about it:

    - [lib/types.ts]: the wire types and the client state record;
    - [lib/protocol.ts]: the protocol reducer [applyMessage];
    - [components/InspectorPanel.tsx]: the entry resolver [resolveEntries];
    - [hooks/useAgentSocket.ts]: the connection manager and its backoff;
    - [components/ConnectionStatus.tsx]: the connection toast state machine.

    Modelling conventions.  JavaScript strings are [string]s (sequences of
    bytes, concatenated with [+:+]); the integer-valued wire numbers (rounds,
    counts, token totals, seconds, milliseconds) are [Z]; the one fractional
    field, [context_pct], is a [Q]; [T | null] is [option T]; arrays are lists
    read with a JavaScript-style index lookup that answers [None] out of
    range.  The two places where the source reads its environment are explicit
    inputs: the wall clock read by [new Date().toLocaleTimeString()] is the
    [now] argument of the reducer, and timers are events of the machines. *)

From Stdlib Require Import ZArith QArith.QArith_base Ascii String Lia.
From stdpp Require Import base list strings pretty.

#[local] Set Warnings "-register-all".

Local Open Scope Z_scope.

(** ** lib/types.ts *)

(** Mirrors [AgentEntry]: a tagged union with one key per variant. *)
Inductive AgentEntry : Type :=
  | Text (text : string)
  | ToolExecuting (name arguments : string)
  | ToolResult (name result : string) (is_error : bool)
  | UserMessage (message : string)
  | TodoUpdate (content : string).

Inductive LogLevel : Type := Trace | Debug | Info | Warn | Error.

Record LogLine : Type := mkLogLine {
  time : string;
  level : LogLevel;
  message : string
}.

Record QuestionChoice : Type := mkQuestionChoice {
  label : string;
  body : string;
  metadata : string
}.

Record UserQuestion : Type := mkUserQuestion {
  prompt : string;
  choices : list QuestionChoice;
  editable : bool;
  max_edit_length : option Z
}.

Record ActiveQuestionSnapshot : Type := mkActiveQuestion {
  question : UserQuestion;
  remaining_secs : option Z;
  done : bool
}.

(** The values of [Record<string, unknown>]: decoded JSON, objects as
    key/value lists in document order. *)
Inductive Json : Type :=
  | JNull
  | JBool (b : bool)
  | JNumber (q : Q)
  | JString (s : string)
  | JArray (items : list Json)
  | JObject (fields : list (string * Json)).

Definition JsonRecord : Type := list (string * Json).

(** Mirrors [UiStateSnapshot].  The field names are the wire names; they live
    in their own name space because the client state reuses several. *)
Module Snapshot.
Record UiStateSnapshot : Type := mk {
  phase : string;
  round : Z;
  max_rounds : Z;
  context_pct : Q;
  model : string;
  cycle : Z;
  agent_output : list AgentEntry;
  streaming_buffer : string;
  logs : list LogLine;
  running : bool;
  next_cycle_secs : option Z;
  active_question : option ActiveQuestionSnapshot;
  extension : option JsonRecord
}.
End Snapshot.

(** Mirrors [AgentState], the flattened client state. *)
Record AgentState : Type := mkAgentState {
  phase : string;
  round : Z;
  maxRounds : Z;
  contextPct : Q;
  model : string;
  cycle : Z;
  entries : list AgentEntry;
  streamingBuffer : string;
  reasoningBuffer : string;
  logs : list LogLine;
  running : bool;
  nextCycleSecs : option Z;
  activeQuestion : option ActiveQuestionSnapshot;
  extension : option JsonRecord;
  totalPromptTokens : Z;
  totalCompletionTokens : Z
}.

Definition INITIAL_STATE : AgentState := {|
  phase := "Connecting...";
  round := 0;
  maxRounds := 0;
  contextPct := 0 # 1;
  model := EmptyString;
  cycle := 0;
  entries := [];
  streamingBuffer := EmptyString;
  reasoningBuffer := EmptyString;
  logs := [];
  running := true;
  nextCycleSecs := None;
  activeQuestion := None;
  extension := None;
  totalPromptTokens := 0;
  totalCompletionTokens := 0
|}.

(** Object spread with overrides, [{ ...prev, field: v }], one setter per
    overridden field. *)
Definition set_phase (v : string) (s : AgentState) : AgentState :=
  let '(mkAgentState _ b c d e f g h i j k l m n o p) := s in
  mkAgentState v b c d e f g h i j k l m n o p.
Definition set_round (v : Z) (s : AgentState) : AgentState :=
  let '(mkAgentState a _ c d e f g h i j k l m n o p) := s in
  mkAgentState a v c d e f g h i j k l m n o p.
Definition set_maxRounds (v : Z) (s : AgentState) : AgentState :=
  let '(mkAgentState a b _ d e f g h i j k l m n o p) := s in
  mkAgentState a b v d e f g h i j k l m n o p.
Definition set_contextPct (v : Q) (s : AgentState) : AgentState :=
  let '(mkAgentState a b c _ e f g h i j k l m n o p) := s in
  mkAgentState a b c v e f g h i j k l m n o p.
Definition set_model (v : string) (s : AgentState) : AgentState :=
  let '(mkAgentState a b c d _ f g h i j k l m n o p) := s in
  mkAgentState a b c d v f g h i j k l m n o p.
Definition set_entries (v : list AgentEntry) (s : AgentState) : AgentState :=
  let '(mkAgentState a b c d e f _ h i j k l m n o p) := s in
  mkAgentState a b c d e f v h i j k l m n o p.
Definition set_streamingBuffer (v : string) (s : AgentState) : AgentState :=
  let '(mkAgentState a b c d e f g _ i j k l m n o p) := s in
  mkAgentState a b c d e f g v i j k l m n o p.
Definition set_reasoningBuffer (v : string) (s : AgentState) : AgentState :=
  let '(mkAgentState a b c d e f g h _ j k l m n o p) := s in
  mkAgentState a b c d e f g h v j k l m n o p.
Definition set_logs (v : list LogLine) (s : AgentState) : AgentState :=
  let '(mkAgentState a b c d e f g h i _ k l m n o p) := s in
  mkAgentState a b c d e f g h i v k l m n o p.
Definition set_running (v : bool) (s : AgentState) : AgentState :=
  let '(mkAgentState a b c d e f g h i j _ l m n o p) := s in
  mkAgentState a b c d e f g h i j v l m n o p.
Definition set_activeQuestion (v : option ActiveQuestionSnapshot)
    (s : AgentState) : AgentState :=
  let '(mkAgentState a b c d e f g h i j k l _ n o p) := s in
  mkAgentState a b c d e f g h i j k l v n o p.
Definition set_extension (v : option JsonRecord) (s : AgentState) : AgentState :=
  let '(mkAgentState a b c d e f g h i j k l m _ o p) := s in
  mkAgentState a b c d e f g h i j k l m v o p.
Definition set_totalPromptTokens (v : Z) (s : AgentState) : AgentState :=
  let '(mkAgentState a b c d e f g h i j k l m n _ p) := s in
  mkAgentState a b c d e f g h i j k l m n v p.
Definition set_totalCompletionTokens (v : Z) (s : AgentState) : AgentState :=
  let '(mkAgentState a b c d e f g h i j k l m n o _) := s in
  mkAgentState a b c d e f g h i j k l m n o v.

(** ** JavaScript built-ins used by the reducer and the resolver *)

(** [arr[i]] for a possibly negative or too large index: [undefined] is
    [None]. *)
Definition js_index {A : Type} (arr : list A) (i : Z) : option A :=
  if i <? 0 then None else arr !! Z.to_nat i.

(** [arr.findIndex(p)]: the first index whose element satisfies [p], or -1. *)
Definition findIndex {A : Type} (p : A → bool) (arr : list A) : Z :=
  match list_find (λ x, p x = true) arr with
  | Some (i, _) => Z.of_nat i
  | None => -1
  end.

(** [const updated = [...arr]; updated[idx] = v] for an index in range. *)
Definition array_set {A : Type} (arr : list A) (idx : Z) (v : A) : list A :=
  <[Z.to_nat idx := v]> arr.

Definition dquote : string := String (ascii_of_nat 34) EmptyString.
Definition backslash : string := String (ascii_of_nat 92) EmptyString.

Definition hex_digit (n : nat) : string :=
  match String.get n "0123456789abcdef" with
  | Some c => String c EmptyString
  | None => EmptyString
  end.

(** One character of [JSON.stringify] applied to a string: the two-character
    escapes, [\u00XX] for the other control characters, the character itself
    otherwise. *)
Definition json_quote_char (c : ascii) : string :=
  let n := nat_of_ascii c in
  if (n =? 8)%nat then backslash +:+ "b"
  else if (n =? 9)%nat then backslash +:+ "t"
  else if (n =? 10)%nat then backslash +:+ "n"
  else if (n =? 12)%nat then backslash +:+ "f"
  else if (n =? 13)%nat then backslash +:+ "r"
  else if (n =? 34)%nat then backslash +:+ dquote
  else if (n =? 92)%nat then backslash +:+ backslash
  else if (n <? 32)%nat then
    backslash +:+ "u00" +:+ hex_digit (n / 16) +:+ hex_digit (n mod 16)
  else String c EmptyString.

Fixpoint json_quote_chars (s : string) : string :=
  match s with
  | EmptyString => EmptyString
  | String c rest => json_quote_char c +:+ json_quote_chars rest
  end.

Definition JSON_stringify_string (s : string) : string :=
  dquote +:+ json_quote_chars s +:+ dquote.

(** [JSON.stringify({ reasoning: text })]. *)
Definition JSON_stringify_reasoning (text : string) : string :=
  "{" +:+ JSON_stringify_string "reasoning" +:+ ":"
      +:+ JSON_stringify_string text +:+ "}".

(** An integer inside a template literal. *)
Definition show (n : Z) : string := pretty n.

(** ** lib/protocol.ts *)

(** Mirrors [WsServerMessage], one constructor per value of the [type]
    discriminator.  The frame handler casts whatever [JSON.parse] returns to
    this type, so an object whose discriminator is none of the twenty-six
    labels also reaches the reducer: that is [msg_other]. *)
Inductive WsServerMessage : Type :=
  | msg_snapshot (data : Snapshot.UiStateSnapshot)
  | msg_text (text : string)
  | msg_text_delta (delta : string)
  | msg_tool_executing (name arguments : string)
  | msg_tool_result (name result : string) (is_error : bool)
  | msg_reasoning (text : string)
  | msg_reasoning_delta (delta : string)
  | msg_round (round max_rounds : Z) (context_pct : Q)
  | msg_phase (phase : string)
  | msg_question (question : UserQuestion)
  | msg_question_dismissed
  | msg_finished
  | msg_log (line : LogLine)
  | msg_extension (data : JsonRecord)
  | msg_user_message (message : string)
  | msg_token_usage (prompt_tokens completion_tokens : Z)
  | msg_tool_calls_received (round count : Z)
  | msg_tool_cache_hit (name arguments : string)
  | msg_eviction (freed_chars evicted_count : Z)
  | msg_compaction (compaction_number : Z)
  | msg_model_routed (model : string) (round : Z)
  | msg_checkpoint_saved (round : Z) (path : string)
  | msg_checkpoint_resumed (round : Z)
  | msg_empty_response (round attempt max_retries : Z)
  | msg_approval_required (name arguments : string)
  | msg_todo_update (content : string)
  | msg_other (type : string).

(** The [type] field of a message. *)
Definition msg_type (msg : WsServerMessage) : string :=
  match msg with
  | msg_snapshot _ => "snapshot"
  | msg_text _ => "text"
  | msg_text_delta _ => "text_delta"
  | msg_tool_executing _ _ => "tool_executing"
  | msg_tool_result _ _ _ => "tool_result"
  | msg_reasoning _ => "reasoning"
  | msg_reasoning_delta _ => "reasoning_delta"
  | msg_round _ _ _ => "round"
  | msg_phase _ => "phase"
  | msg_question _ => "question"
  | msg_question_dismissed => "question_dismissed"
  | msg_finished => "finished"
  | msg_log _ => "log"
  | msg_extension _ => "extension"
  | msg_user_message _ => "user_message"
  | msg_token_usage _ _ => "token_usage"
  | msg_tool_calls_received _ _ => "tool_calls_received"
  | msg_tool_cache_hit _ _ => "tool_cache_hit"
  | msg_eviction _ _ => "eviction"
  | msg_compaction _ => "compaction"
  | msg_model_routed _ _ => "model_routed"
  | msg_checkpoint_saved _ _ => "checkpoint_saved"
  | msg_checkpoint_resumed _ => "checkpoint_resumed"
  | msg_empty_response _ _ _ => "empty_response"
  | msg_approval_required _ _ => "approval_required"
  | msg_todo_update _ => "todo_update"
  | msg_other type => type
  end.

(** The [case] labels of the reducer's [switch]. *)
Definition case_labels : list string :=
  [ "snapshot"; "text"; "text_delta"; "tool_executing"; "tool_result";
    "reasoning"; "reasoning_delta"; "round"; "phase"; "question";
    "question_dismissed"; "finished"; "log"; "extension"; "user_message";
    "token_usage"; "tool_calls_received"; "tool_cache_hit"; "eviction";
    "compaction"; "model_routed"; "checkpoint_saved"; "checkpoint_resumed";
    "empty_response"; "approval_required"; "todo_update" ].

(** ["TodoUpdate" in e]. *)
Definition in_TodoUpdate (e : AgentEntry) : bool :=
  match e with TodoUpdate _ => true | _ => false end.

(** [applyMessage(prev, msg)], run at a moment when
    [new Date().toLocaleTimeString()] evaluates to [now]. *)
Definition applyMessage (now : string) (prev : AgentState)
    (msg : WsServerMessage) : AgentState :=
  match msg with
  | msg_snapshot s =>
      {| phase := Snapshot.phase s;
         round := Snapshot.round s;
         maxRounds := Snapshot.max_rounds s;
         contextPct := Snapshot.context_pct s;
         model := Snapshot.model s;
         cycle := Snapshot.cycle s;
         entries := Snapshot.agent_output s;
         streamingBuffer := Snapshot.streaming_buffer s;
         reasoningBuffer := EmptyString;
         logs := Snapshot.logs s;
         running := Snapshot.running s;
         nextCycleSecs := Snapshot.next_cycle_secs s;
         activeQuestion := Snapshot.active_question s;
         extension := Snapshot.extension s;
         totalPromptTokens := totalPromptTokens prev;
         totalCompletionTokens := totalCompletionTokens prev |}
  | msg_text text =>
      set_streamingBuffer EmptyString
        (set_entries (entries prev ++ [Text text]) prev)
  | msg_text_delta delta =>
      set_streamingBuffer (streamingBuffer prev +:+ delta) prev
  | msg_tool_executing name arguments =>
      set_entries (entries prev ++ [ToolExecuting name arguments])
        (set_phase ("Tool: " +:+ name) prev)
  | msg_tool_result name result is_error =>
      set_entries (entries prev ++ [ToolResult name result is_error]) prev
  | msg_reasoning text =>
      set_reasoningBuffer EmptyString
        (set_entries
           (entries prev ++
              [ ToolExecuting "think" (JSON_stringify_reasoning text);
                ToolResult "think" "ok" false ])
           prev)
  | msg_reasoning_delta delta =>
      set_reasoningBuffer (reasoningBuffer prev +:+ delta) prev
  | msg_round round max_rounds context_pct =>
      set_contextPct context_pct
        (set_maxRounds max_rounds (set_round round prev))
  | msg_phase phase => set_phase phase prev
  | msg_question question =>
      set_activeQuestion
        (Some {| question := question; remaining_secs := None; done := false |})
        prev
  | msg_question_dismissed => set_activeQuestion None prev
  | msg_finished => set_phase "Finished" (set_running false prev)
  | msg_log line => set_logs (logs prev ++ [line]) prev
  | msg_extension data => set_extension (Some data) prev
  | msg_user_message message =>
      set_entries (entries prev ++ [UserMessage message]) prev
  | msg_token_usage prompt_tokens completion_tokens =>
      set_totalCompletionTokens (totalCompletionTokens prev + completion_tokens)
        (set_totalPromptTokens (totalPromptTokens prev + prompt_tokens) prev)
  | msg_tool_calls_received _ count =>
      set_phase (show count +:+ " tool call(s)") prev
  | msg_tool_cache_hit name arguments =>
      set_entries
        (entries prev ++ [ToolExecuting (name +:+ " (cached)") arguments]) prev
  | msg_model_routed model _ => set_model model prev
  | msg_eviction freed_chars evicted_count =>
      set_logs
        (logs prev ++
           [ {| time := now; level := Info;
                message := "Context eviction: freed " +:+ show freed_chars
                  +:+ " chars from " +:+ show evicted_count
                  +:+ " tool result(s)" |} ])
        prev
  | msg_compaction compaction_number =>
      set_logs
        (logs prev ++
           [ {| time := now; level := Info;
                message := "Context compaction #" +:+ show compaction_number
                  +:+ " completed" |} ])
        prev
  | msg_checkpoint_saved round path =>
      set_logs
        (logs prev ++
           [ {| time := now; level := Debug;
                message := "Checkpoint saved at round " +:+ show round
                  +:+ ": " +:+ path |} ])
        prev
  | msg_checkpoint_resumed round =>
      set_logs
        (logs prev ++
           [ {| time := now; level := Info;
                message := "Resumed from checkpoint at round "
                  +:+ show round |} ])
        prev
  | msg_empty_response round attempt max_retries =>
      set_logs
        (logs prev ++
           [ {| time := now; level := Warn;
                message := "Empty API response at round " +:+ show round
                  +:+ ", retrying (" +:+ show attempt +:+ "/"
                  +:+ show max_retries +:+ ")" |} ])
        (set_phase
           ("Retrying (" +:+ show attempt +:+ "/" +:+ show max_retries +:+ ")")
           prev)
  | msg_approval_required name _ =>
      set_logs
        (logs prev ++
           [ {| time := now; level := Info;
                message := "Approval required for tool: " +:+ name |} ])
        prev
  | msg_todo_update content =>
      let idx := findIndex in_TodoUpdate (entries prev) in
      if 0 <=? idx then
        set_entries (array_set (entries prev) idx (TodoUpdate content)) prev
      else
        set_entries (entries prev ++ [TodoUpdate content]) prev
  | msg_other _ => prev
  end.

(** The frame handler of the socket: each decoded message is folded into the
    state with the clock reading of the moment it is handled. *)
Definition applyAll (prev : AgentState)
    (frames : list (string * WsServerMessage)) : AgentState :=
  fold_left (λ st frame, applyMessage frame.1 st frame.2) frames prev.

(** ** components/InspectorPanel.tsx *)

Inductive ResolvedEntry : Type :=
  | r_text (text : string)
  | r_user (message : string)
  | r_tool (name arguments : string)
      (result : option string) (isError : option bool)
  | r_orphan_result (name result : string) (isError : bool)
  | r_todo (content : string).

(** The body of the [for] loop of [resolveEntries] at index [i]: the array
    [resolved] after the iteration ([push] appends, [continue] leaves it).
    Inside the loop [entries[i]] is always defined; the [None] branch is
    there for totality only. *)
Definition resolve_step (entries : list AgentEntry)
    (resolved : list ResolvedEntry) (i : Z) : list ResolvedEntry :=
  match js_index entries i with
  | None => resolved
  | Some (UserMessage message) => resolved ++ [r_user message]
  | Some (Text text) => resolved ++ [r_text text]
  | Some (ToolExecuting name arguments) =>
      let next := js_index entries (i + 1) in
      let paired :=
        match next with
        | Some (ToolResult next_name result is_error) =>
            if String.eqb next_name name
            then (Some result, Some is_error) else (None, None)
        | _ => (None, None)
        end in
      resolved ++ [r_tool name arguments paired.1 paired.2]
  | Some (ToolResult name result is_error) =>
      let prev := js_index entries (i - 1) in
      let skip :=
        match prev with
        | Some (ToolExecuting prev_name _) => String.eqb prev_name name
        | _ => false
        end in
      if skip then resolved
      else resolved ++ [r_orphan_result name result is_error]
  | Some (TodoUpdate content) => resolved ++ [r_todo content]
  end.

(** The indices [0, 1, ..., n - 1] visited by [for (let i = 0; i < n; i++)]. *)
Definition loop_indices (n : nat) : list Z := Z.of_nat <$> seq 0 n.

Definition resolveEntries (entries : list AgentEntry) : list ResolvedEntry :=
  fold_left (resolve_step entries) (loop_indices (length entries)) [].

(** What iteration [i] pushes: nothing or one resolved entry. *)
Definition pushed_at (entries : list AgentEntry) (i : Z) : list ResolvedEntry :=
  resolve_step entries [] i.

(** Resolved entries that carry the outcome of some tool call. *)
Definition has_result (r : ResolvedEntry) : bool :=
  match r with
  | r_tool _ _ (Some _) _ => true
  | r_orphan_result _ _ _ => true
  | _ => false
  end.

Definition in_ToolResult (e : AgentEntry) : bool :=
  match e with ToolResult _ _ _ => true | _ => false end.

(** ** hooks/useAgentSocket.ts *)

Definition MAX_RETRY_DELAY : Z := 16000.

Inductive ReadyState : Type := CONNECTING | OPEN | CLOSED.

(** The mutable cells of one mounted [useAgentSocket]: the two pieces of React
    state, the two refs, and the locals of the effect.  [timeoutId] holds the
    delay of the reconnect timer that is pending, if any. *)
Record Manager : Type := mkManager {
  state : AgentState;
  connected : bool;
  wsRef : option ReadyState;
  retryDelayRef : Z;
  cancelled : bool;
  timeoutId : option Z
}.

Definition mount : Manager := {|
  state := INITIAL_STATE;
  connected := false;
  wsRef := None;
  retryDelayRef := 1000;
  cancelled := false;
  timeoutId := None
|}.

(** [connect()]: nothing once torn down, a fresh socket otherwise. *)
Definition connect (m : Manager) : Manager :=
  if cancelled m then m
  else {| state := state m; connected := connected m;
          wsRef := Some CONNECTING; retryDelayRef := retryDelayRef m;
          cancelled := cancelled m; timeoutId := timeoutId m |}.

Definition onopen (m : Manager) : Manager :=
  {| state := state m; connected := true;
     wsRef := option_map (λ _, OPEN) (wsRef m); retryDelayRef := 1000;
     cancelled := cancelled m; timeoutId := timeoutId m |}.

(** [onmessage]: a frame that [JSON.parse] rejects ([None]) is ignored. *)
Definition onmessage (now : string) (frame : option WsServerMessage)
    (m : Manager) : Manager :=
  match frame with
  | None => m
  | Some msg =>
      {| state := applyMessage now (state m) msg; connected := connected m;
         wsRef := wsRef m; retryDelayRef := retryDelayRef m;
         cancelled := cancelled m; timeoutId := timeoutId m |}
  end.

Definition onclose (m : Manager) : Manager :=
  if cancelled m then
    {| state := state m; connected := false; wsRef := None;
       retryDelayRef := retryDelayRef m; cancelled := cancelled m;
       timeoutId := timeoutId m |}
  else
    let delay := Z.min (retryDelayRef m) MAX_RETRY_DELAY in
    {| state := state m; connected := false; wsRef := None;
       retryDelayRef := delay * 2; cancelled := cancelled m;
       timeoutId := Some delay |}.

(** The reconnect timer fires: it is no longer pending, and [connect] runs. *)
Definition ontimeout (m : Manager) : Manager :=
  connect {| state := state m; connected := connected m; wsRef := wsRef m;
             retryDelayRef := retryDelayRef m; cancelled := cancelled m;
             timeoutId := None |}.

(** The cleanup of the effect. *)
Definition teardown (m : Manager) : Manager :=
  {| state := state m; connected := connected m;
     wsRef := option_map (λ _, CLOSED) (wsRef m);
     retryDelayRef := retryDelayRef m; cancelled := true; timeoutId := None |}.

Inductive SocketEvent : Type :=
  | ev_open
  | ev_message (now : string) (frame : option WsServerMessage)
  | ev_close
  | ev_timeout
  | ev_teardown.

Definition handle (m : Manager) (ev : SocketEvent) : Manager :=
  match ev with
  | ev_open => onopen m
  | ev_message now frame => onmessage now frame m
  | ev_close => onclose m
  | ev_timeout => ontimeout m
  | ev_teardown => teardown m
  end.

Definition handleAll (m : Manager) (evs : list SocketEvent) : Manager :=
  fold_left handle evs m.

Definition is_close (ev : SocketEvent) : bool :=
  match ev with ev_close => true | _ => false end.

(** Events that leave the run of consecutive failures going: everything but
    a successful open and the teardown. *)
Definition keeps_failing (ev : SocketEvent) : bool :=
  match ev with ev_open | ev_teardown => false | _ => true end.

(** The number of closures in a trace. *)
Definition closures (evs : list SocketEvent) : nat :=
  length (filter (λ ev, is_close ev = true) evs).

(** ** components/ConnectionStatus.tsx *)

Inductive Phase : Type := hidden | disconnected | reconnected | exiting.

(** The refs of the toast and the two timers of its effect, each with the
    milliseconds left until it fires. *)
Record Toast : Type := mkToast {
  phaseRef : Phase;
  prevConnectedRef : bool;
  timer : option Z;
  exitTimer : option Z
}.

Definition toast_mount : Toast := {|
  phaseRef := hidden;
  prevConnectedRef := true;
  timer := None;
  exitTimer := None
|}.

Definition setPhase (p : Phase) (t : Toast) : Toast :=
  {| phaseRef := p; prevConnectedRef := prevConnectedRef t;
     timer := timer t; exitTimer := exitTimer t |}.

(** The body of the effect, run with the current value of [connected]. *)
Definition effect (connected : bool) (t : Toast) : Toast :=
  let wasConnected := prevConnectedRef t in
  let t := {| phaseRef := phaseRef t; prevConnectedRef := connected;
              timer := timer t; exitTimer := exitTimer t |} in
  if negb connected then setPhase disconnected t
  else if negb wasConnected then
    let t := setPhase reconnected t in
    {| phaseRef := phaseRef t; prevConnectedRef := prevConnectedRef t;
       timer := Some 2000; exitTimer := Some 2350 |}
  else t.

(** The function the effect returns: both timers are cleared. *)
Definition effect_cleanup (t : Toast) : Toast :=
  {| phaseRef := phaseRef t; prevConnectedRef := prevConnectedRef t;
     timer := None; exitTimer := None |}.

(** A render that commits a value of [connected]: on mount, and whenever the
    value changes, the previous effect is cleaned up and the effect runs. *)
Definition observe (t : Toast) (connected : bool) : Toast :=
  effect connected (effect_cleanup t).

(** [ms] milliseconds pass with no render: timers that come due fire, the
    2000 ms one before the 2350 ms one. *)
Definition elapse (ms : Z) (t : Toast) : Toast :=
  let t1 :=
    match timer t with
    | Some remaining =>
        if remaining <=? ms then
          {| phaseRef := exiting; prevConnectedRef := prevConnectedRef t;
             timer := None; exitTimer := exitTimer t |}
        else
          {| phaseRef := phaseRef t; prevConnectedRef := prevConnectedRef t;
             timer := Some (remaining - ms); exitTimer := exitTimer t |}
    | None => t
    end in
  match exitTimer t1 with
  | Some remaining =>
      if remaining <=? ms then
        {| phaseRef := hidden; prevConnectedRef := prevConnectedRef t1;
           timer := timer t1; exitTimer := None |}
      else
        {| phaseRef := phaseRef t1; prevConnectedRef := prevConnectedRef t1;
           timer := timer t1; exitTimer := Some (remaining - ms) |}
  | None => t1
  end.

(** The toast is mounted by the page together with the socket hook and reads
    the hook's [connected] flag: it observes the flag of the mounted manager
    and then the flag after each event that changes it. *)
Fixpoint flags_seen (m : Manager) (evs : list SocketEvent) : list bool :=
  match evs with
  | [] => []
  | ev :: rest =>
      let m' := handle m ev in
      if Bool.eqb (connected m') (connected m) then flags_seen m' rest
      else connected m' :: flags_seen m' rest
  end.

Definition toast_after (evs : list SocketEvent) : Toast :=
  fold_left observe (connected mount :: flags_seen mount evs) toast_mount.

(** ** Definitions used to state and prove the properties *)

(** The messages for which the reducer synthesizes a log line, stamped with
    the local time it reads from the clock. *)
Definition synthesizes_log (msg : WsServerMessage) : bool :=
  match msg with
  | msg_eviction _ _ | msg_compaction _ | msg_checkpoint_saved _ _
  | msg_checkpoint_resumed _ | msg_empty_response _ _ _
  | msg_approval_required _ _ => true
  | _ => false
  end.

Definition is_todo_update (frame : string * WsServerMessage) : Prop :=
  ∃ content, frame.2 = msg_todo_update content.

(** A [tool] resolved entry into which a [ToolResult] was merged. *)
Definition is_paired (r : ResolvedEntry) : bool :=
  match r with r_tool _ _ (Some _) _ => true | _ => false end.

(** The resolver's scan as a recursion on the log, each entry seen with its
    two neighbours.  A proof device: [resolveEntries_resolve_from] shows that
    the loop of [resolveEntries] computes it. *)
Definition emit (prev : option AgentEntry) (entry : AgentEntry)
    (next : option AgentEntry) : list ResolvedEntry :=
  match entry with
  | UserMessage message => [r_user message]
  | Text text => [r_text text]
  | ToolExecuting name arguments =>
      match next with
      | Some (ToolResult next_name result is_error) =>
          if String.eqb next_name name
          then [r_tool name arguments (Some result) (Some is_error)]
          else [r_tool name arguments None None]
      | _ => [r_tool name arguments None None]
      end
  | ToolResult name result is_error =>
      match prev with
      | Some (ToolExecuting prev_name _) =>
          if String.eqb prev_name name then []
          else [r_orphan_result name result is_error]
      | _ => [r_orphan_result name result is_error]
      end
  | TodoUpdate content => [r_todo content]
  end.

Fixpoint resolve_from (prev : option AgentEntry) (log : list AgentEntry)
    : list ResolvedEntry :=
  match log with
  | [] => []
  | entry :: rest => emit prev entry (head rest) ++ resolve_from (Some entry) rest
  end.

(** Whether [prev] is a [ToolExecuting] that the resolver pairs with the
    entry [e] that follows it. *)
Definition pairs_with (prev : option AgentEntry) (e : option AgentEntry) : bool :=
  match prev, e with
  | Some (ToolExecuting prev_name _), Some (ToolResult name _ _) =>
      String.eqb prev_name name
  | _, _ => false
  end.

(** ** Further code of the same files *)

(** *** lib/types.ts: client to server messages *)

(** Mirrors [QuestionResponse]. *)
Inductive QuestionResponse : Type :=
  | Selected (index : Z)
  | SelectedEdited (index : Z) (edited_text : string)
  | Skipped
  | TimedOut.

(** The objects the hook serializes onto the socket. *)
Inductive ClientMessage : Type :=
  | cm_answer (response : QuestionResponse)
  | cm_chat (message : string)
  | cm_quit.

(** *** hooks/useAgentSocket.ts: outbound commands *)

(** [if (ws?.readyState === WebSocket.OPEN) ws.send(...)]: what is handed to
    the socket, if anything. *)
Definition ws_send (m : Manager) (msg : ClientMessage) : option ClientMessage :=
  match wsRef m with
  | Some OPEN => Some msg
  | _ => None
  end.

Definition sendAnswer (m : Manager) (response : QuestionResponse)
    : option ClientMessage :=
  ws_send m (cm_answer response).

Definition sendChat (m : Manager) (message : string) : option ClientMessage :=
  ws_send m (cm_chat message).

Definition sendQuit (m : Manager) : option ClientMessage :=
  ws_send m cm_quit.

(** The frames of a trace that [JSON.parse] accepted, with the clock reading
    of their handling. *)
Definition decoded_frames (evs : list SocketEvent)
    : list (string * WsServerMessage) :=
  flat_map (λ ev, match ev with
                  | ev_message now (Some msg) => [(now, msg)]
                  | _ => []
                  end) evs.

(** *** lib/protocol.ts: quantities of a run of frames *)

(** The tokens reported by the [token_usage] frames of a run. *)
Definition prompt_tokens_of (frame : string * WsServerMessage) : Z :=
  match frame.2 with msg_token_usage prompt_tokens _ => prompt_tokens | _ => 0 end.

Definition completion_tokens_of (frame : string * WsServerMessage) : Z :=
  match frame.2 with
  | msg_token_usage _ completion_tokens => completion_tokens
  | _ => 0
  end.

Definition sum_Z (l : list Z) : Z := fold_right Z.add 0 l.

Definition is_snapshot (msg : WsServerMessage) : bool :=
  match msg with msg_snapshot _ => true | _ => false end.

(** The number of [TodoUpdate] entries of a log. *)
Definition todo_count (log : list AgentEntry) : nat :=
  length (filter (λ e, in_TodoUpdate e = true) log).

(** The log lines a message makes the reducer append: the line of a [log]
    message, one line for each synthesizing message, none otherwise. *)
Definition lines_added (msg : WsServerMessage) : nat :=
  match msg with
  | msg_log _ => 1
  | _ => if synthesizes_log msg then 1 else 0
  end.

(** *** components/ConnectionStatus.tsx: the toast over time *)

(** After the mount the effect runs again only when [connected] differs from
    the value of the previous render, which is the one the effect stored in
    [prevConnectedRef]. *)
Definition rerender (t : Toast) (connected : bool) : Toast :=
  if Bool.eqb connected (prevConnectedRef t) then t else observe t connected.

Inductive ToastEvent : Type :=
  | te_render (connected : bool)
  | te_elapse (ms : N).

Definition toast_step (t : Toast) (ev : ToastEvent) : Toast :=
  match ev with
  | te_render connected => rerender t connected
  | te_elapse ms => elapse (Z.of_N ms) t
  end.

(** The toast mounted while the flag is [connected0], then taken through
    renders and delays. *)
Definition toast_run (connected0 : bool) (evs : list ToastEvent) : Toast :=
  fold_left toast_step evs (observe toast_mount connected0).

(** What the component renders: nothing when [hidden], the green "Connected"
    toast when [reconnected] or [exiting], the "Reconnecting" one otherwise. *)
Inductive ToastView : Type := view_none | view_connected | view_reconnecting.

Definition toast_view (t : Toast) : ToastView :=
  match phaseRef t with
  | hidden => view_none
  | reconnected | exiting => view_connected
  | disconnected => view_reconnecting
  end.

(** *** components/LogViewer.tsx *)

Definition levelColor (l : LogLevel) : string :=
  match l with
  | Error => "var(--error)"
  | Warn => "var(--warning)"
  | Info => "var(--accent)"
  | Debug => "var(--text-muted)"
  | Trace => "var(--text-muted)"
  end.

Definition rowBg (l : LogLevel) : option string :=
  match l with
  | Error => Some "oklch(from var(--error) l c h / 0.06)"
  | Warn => Some "oklch(from var(--warning) l c h / 0.06)"
  | Info | Debug | Trace => None
  end.

Definition levelLabel (l : LogLevel) : string :=
  match l with
  | Error => "ERR "
  | Warn => "WARN"
  | Info => "INFO"
  | Debug => "DBUG"
  | Trace => "TRCE"
  end.

(** *** components/QuestionModal.tsx *)

(** The integer-valued JavaScript numbers of the modal's cursor arithmetic:
    an integer, or [NaN] ([None]), which every operation propagates. *)
Definition js_add (a b : option Z) : option Z :=
  match a, b with Some x, Some y => Some (x + y) | _, _ => None end.

Definition js_sub (a b : option Z) : option Z :=
  match a, b with Some x, Some y => Some (x - y) | _, _ => None end.

(** [a % b]: the remainder has the sign of the dividend, and is [NaN] for a
    zero divisor. *)
Definition js_rem (a b : option Z) : option Z :=
  match a, b with
  | Some x, Some y => if y =? 0 then None else Some (Z.rem x y)
  | _, _ => None
  end.

(** The [useState] cells of the modal. *)
Record QuestionModal : Type := mkQuestionModal {
  cursor : option Z;
  editing : bool;
  editText : string;
  totalTimeout : option Z;
  prevPrompt : option string
}.

Definition modal_mount : QuestionModal := {|
  cursor := Some 0;
  editing := false;
  editText := EmptyString;
  totalTimeout := None;
  prevPrompt := None
|}.

(** [question && !question.done ? question.question.prompt : undefined]. *)
Definition currentPrompt (active : option ActiveQuestionSnapshot)
    : option string :=
  match active with
  | Some q => if done q then None else Some (prompt (question q))
  | None => None
  end.

(** The state adjustment made while rendering: when the prompt differs from
    the one of the previous render it is recorded, and a new prompt resets
    the cursor and the edit mode. *)
Definition sync (active : option ActiveQuestionSnapshot) (m : QuestionModal)
    : QuestionModal :=
  let current := currentPrompt active in
  if decide (current = prevPrompt m) then m
  else
    match current with
    | Some _ =>
        {| cursor := Some 0; editing := false; editText := EmptyString;
           totalTimeout := active ≫= remaining_secs;
           prevPrompt := current |}
    | None =>
        {| cursor := cursor m; editing := editing m; editText := editText m;
           totalTimeout := totalTimeout m; prevPrompt := current |}
    end.

Definition setCursor (c : option Z) (m : QuestionModal) : QuestionModal :=
  {| cursor := c; editing := editing m; editText := editText m;
     totalTimeout := totalTimeout m; prevPrompt := prevPrompt m |}.

(** [handleKey]: the state after the key, and the response handed to
    [sendAnswer], if any. *)
Definition handleKey (q : ActiveQuestionSnapshot) (key : string)
    (m : QuestionModal) : QuestionModal * option QuestionResponse :=
  let count := Some (Z.of_nat (length (choices (question q)))) in
  if String.eqb key "ArrowUp" || String.eqb key "k" then
    (setCursor (js_rem (js_add (js_sub (cursor m) (Some 1)) count) count) m,
     None)
  else if String.eqb key "ArrowDown" || String.eqb key "j" then
    (setCursor (js_rem (js_add (cursor m) (Some 1)) count) m, None)
  else if String.eqb key "Enter" then
    match cursor m ≫= js_index (choices (question q)) with
    | None => (m, None)
    | Some selected =>
        if editable (question q) then
          ({| cursor := cursor m; editing := true; editText := body selected;
              totalTimeout := totalTimeout m; prevPrompt := prevPrompt m |},
           None)
        else
          match cursor m with
          | Some c => (m, Some (Selected c))
          | None => (m, None)
          end
    end
  else if String.eqb key "Escape" then (m, Some Skipped)
  else (m, None).

(** A key press reaches [handleKey] only while the listener is installed:
    with an outstanding question, outside the edit mode. *)
Definition keydown (active : option ActiveQuestionSnapshot) (key : string)
    (m : QuestionModal) : QuestionModal * option QuestionResponse :=
  match active with
  | Some q => if done q || editing m then (m, None) else handleKey q key m
  | None => (m, None)
  end.

(** *** The range in which the token additions are exact *)

(** The integers that a JavaScript number holds exactly and between which
    its [+] is the integer addition: those of magnitude at most 2^53. *)
Definition safe_integer (z : Z) : Prop := - 2 ^ 53 <= z <= 2 ^ 53.

(** A run in which every [token_usage] frame adds safe integers to safe
    totals and gives safe totals.  The code adds the totals as doubles; on
    such a run each of its additions is exact, and is the integer addition
    of [applyMessage]. *)
Fixpoint exact_token_sums (st : AgentState)
    (frames : list (string * WsServerMessage)) : Prop :=
  match frames with
  | [] => True
  | frame :: rest =>
      match frame.2 with
      | msg_token_usage prompt_tokens completion_tokens =>
          safe_integer prompt_tokens
          ∧ safe_integer completion_tokens
          ∧ safe_integer (totalPromptTokens st)
          ∧ safe_integer (totalCompletionTokens st)
          ∧ safe_integer (totalPromptTokens st + prompt_tokens)
          ∧ safe_integer (totalCompletionTokens st + completion_tokens)
      | _ => True
      end
      ∧ exact_token_sums (applyMessage frame.1 st frame.2) rest
  end.

(** *** Conditions kept along every run *)

(** The value of [connected] at the last render of a toast run. *)
Definition rendered_flag (connected0 : bool) (evs : list ToastEvent) : bool :=
  fold_left (λ c ev, match ev with te_render c' => c' | te_elapse _ => c end)
    evs connected0.

(** The shapes the toast can be in: [disconnected] with no timer; [hidden]
    with no timer; [reconnected] with both timers pending, 350 ms apart;
    [exiting] with the second timer pending. *)
Definition toast_shape (t : Toast) : Prop :=
  match prevConnectedRef t, phaseRef t with
  | false, disconnected => timer t = None ∧ exitTimer t = None
  | true, hidden => timer t = None ∧ exitTimer t = None
  | true, reconnected =>
      ∃ r, 0 < r <= 2000 ∧ timer t = Some r ∧ exitTimer t = Some (r + 350)
  | true, exiting => ∃ r, 0 < r <= 350 ∧ timer t = None ∧ exitTimer t = Some r
  | _, _ => False
  end.

(** The delays the manager can hold and the delays it can schedule. *)
Definition backoff_shape (m : Manager) : Prop :=
  retryDelayRef m ∈ [1000; 2000; 4000; 8000; 16000; 32000]
  ∧ ∀ d, timeoutId m = Some d → d ∈ [1000; 2000; 4000; 8000; 16000].

(** *** Sample questions for the concrete runs *)

Definition three_choices : list QuestionChoice :=
  [ {| label := "A"; body := "first draft"; metadata := EmptyString |};
    {| label := "B"; body := "second draft"; metadata := EmptyString |};
    {| label := "C"; body := "third draft"; metadata := EmptyString |} ].

Definition pick_one : ActiveQuestionSnapshot :=
  {| question := {| prompt := "Which draft?"; choices := three_choices;
                    editable := false; max_edit_length := None |};
     remaining_secs := None; done := false |}.

Definition edit_one : ActiveQuestionSnapshot :=
  {| question := {| prompt := "Which draft?"; choices := three_choices;
                    editable := true; max_edit_length := Some 280 |};
     remaining_secs := Some 30; done := false |}.

(** * Properties of the protocol reducer *)

Section Reducer.

Implicit Types (now : string) (st : AgentState) (msg : WsServerMessage).

Lemma entries_set_entries v st : entries (set_entries v st) = v.
Proof. by destruct st. Qed.

Lemma findIndex_none {A} (p : A → bool) (arr : list A) :
  Forall (λ x, p x = false) arr → findIndex p arr = -1.
Proof.
  intros Hall. unfold findIndex.
  destruct (list_find _ arr) as [[i x]|] eqn:Hfind; [|done].
  apply list_find_Some in Hfind as (Hi & Hp & _).
  rewrite Forall_lookup in Hall. specialize (Hall _ _ Hi). congruence.
Qed.

Lemma findIndex_first {A} (p : A → bool) (pre post : list A) (x : A) :
  Forall (λ y, p y = false) pre → p x = true →
  findIndex p (pre ++ x :: post) = Z.of_nat (length pre).
Proof.
  intros Hpre Hx. unfold findIndex.
  destruct (list_find _ (pre ++ x :: post)) as [[i y]|] eqn:Hfind.
  - apply list_find_Some in Hfind as (Hi & Hp & Hleast).
    destruct (Nat.lt_trichotomy i (length pre)) as [Hlt|[->|Hgt]]; [|done|].
    + rewrite lookup_app_l in Hi by done.
      rewrite Forall_lookup in Hpre. specialize (Hpre _ _ Hi). congruence.
    + exfalso. apply (Hleast (length pre) x); [|done..].
      by rewrite list_lookup_middle.
  - apply list_find_None in Hfind.
    rewrite Forall_app, Forall_cons in Hfind.
    destruct Hfind as (_ & Hnot & _). by destruct Hnot.
Qed.

(** If the log holds a [TodoUpdate], [findIndex] answers the index of the
    first one, otherwise -1. *)
Lemma findIndex_todo_cases (arr : list AgentEntry) :
  (findIndex in_TodoUpdate arr = -1
     ∧ Forall (λ e, in_TodoUpdate e = false) arr)
  ∨ (∃ (i : nat) old,
       findIndex in_TodoUpdate arr = Z.of_nat i
       ∧ arr !! i = Some (TodoUpdate old)
       ∧ ∀ (j : nat) e, arr !! j = Some e → (j < i)%nat
           → in_TodoUpdate e = false).
Proof.
  unfold findIndex.
  destruct (list_find _ arr) as [[i x]|] eqn:Hfind.
  - right. apply list_find_Some in Hfind as (Hi & Hp & Hleast).
    destruct x; try discriminate. exists i, content. split_and!; [done..|].
    intros j e Hj Hlt. specialize (Hleast j e Hj Hlt).
    by destruct (in_TodoUpdate e).
  - left. split; [done|]. apply list_find_None in Hfind.
    eapply Forall_impl; [exact Hfind|]. intros e He; simpl in He.
    by destruct (in_TodoUpdate e).
Qed.

Lemma todo_update_append now st content :
  Forall (λ e, in_TodoUpdate e = false) (entries st) →
  entries (applyMessage now st (msg_todo_update content))
    = entries st ++ [TodoUpdate content].
Proof.
  intros Hnone. simpl. rewrite (findIndex_none _ _ Hnone). simpl.
  apply entries_set_entries.
Qed.

Lemma todo_update_replace now st pre post old content :
  entries st = pre ++ TodoUpdate old :: post →
  Forall (λ e, in_TodoUpdate e = false) pre →
  entries (applyMessage now st (msg_todo_update content))
    = pre ++ TodoUpdate content :: post.
Proof.
  intros Hentries Hpre. simpl. rewrite Hentries.
  rewrite (findIndex_first _ _ _ _ Hpre) by done.
  destruct (Z.leb_spec 0 (Z.of_nat (length pre))); [|lia].
  rewrite entries_set_entries. unfold array_set.
  rewrite Nat2Z.id, insert_app_r_alt by done. by rewrite Nat.sub_diag.
Qed.

(** Folding a run of [todo_update] frames into a log that ends with the one
    [TodoUpdate] it holds keeps that shape. *)
Lemma todo_updates_keep_slot frames : ∀ st pre old,
  Forall is_todo_update frames →
  entries st = pre ++ [TodoUpdate old] →
  Forall (λ e, in_TodoUpdate e = false) pre →
  ∃ content, entries (applyAll st frames) = pre ++ [TodoUpdate content]
    ∧ (∀ now_last c, last frames = Some (now_last, msg_todo_update c)
         → content = c).
Proof.
  induction frames as [|[now msg] frames IH]; intros st pre old Hall HS Hpre.
  - exists old. split; [done|]. intros ? ?; discriminate.
  - apply Forall_cons in Hall as [[c Hc] Hall]. simpl in Hc. subst msg.
    pose proof (todo_update_replace now st pre [] old c HS Hpre) as Hstep.
    destruct (IH _ pre c Hall Hstep Hpre) as (content & Hfinal & Hlast).
    exists content. split; [exact Hfinal|].
    intros now_last c' Hl. destruct frames as [|f frames'].
    + simpl in Hl. injection Hl as <- <-.
      unfold applyAll in Hfinal. cbn [fold_left fst snd] in Hfinal.
      rewrite Hstep in Hfinal.
      apply app_inv_head in Hfinal. congruence.
    + apply (Hlast now_last). exact Hl.
Qed.

End Reducer.

Section ReducerClaims.

Implicit Types (now : string) (st : AgentState) (msg : WsServerMessage).

Lemma append_assoc (a b c : string) : (a +:+ b) +:+ c = a +:+ (b +:+ c).
Proof.
  induction a as [|ch a IH]; [done|].
  change (String ch ((a +:+ b) +:+ c) = String ch (a +:+ (b +:+ c))).
  by rewrite IH.
Qed.

(** C1.  A snapshot replaces the state: the two token counters are those
    of the previous state, the reasoning buffer is empty, and every other
    field is the field of the snapshot payload. *)
Theorem snapshot_carries_counters now st data :
  let st' := applyMessage now st (msg_snapshot data) in
  totalPromptTokens st' = totalPromptTokens st
  ∧ totalCompletionTokens st' = totalCompletionTokens st
  ∧ reasoningBuffer st' = EmptyString
  ∧ phase st' = Snapshot.phase data
  ∧ round st' = Snapshot.round data
  ∧ maxRounds st' = Snapshot.max_rounds data
  ∧ contextPct st' = Snapshot.context_pct data
  ∧ model st' = Snapshot.model data
  ∧ cycle st' = Snapshot.cycle data
  ∧ entries st' = Snapshot.agent_output data
  ∧ streamingBuffer st' = Snapshot.streaming_buffer data
  ∧ logs st' = Snapshot.logs data
  ∧ running st' = Snapshot.running data
  ∧ nextCycleSecs st' = Snapshot.next_cycle_secs data
  ∧ activeQuestion st' = Snapshot.active_question data
  ∧ extension st' = Snapshot.extension data.
Proof. cbn. repeat split. Qed.

(** C3.  Folding a non-empty run of [todo_update] messages into a state with
    an empty log leaves exactly one [TodoUpdate] entry; its content is that
    of the last message, and its index is not after the index at which the
    first message of the run put it. *)
Theorem todo_singleton st first rest now_last content :
  entries st = [] →
  Forall is_todo_update (first :: rest) →
  last (first :: rest) = Some (now_last, msg_todo_update content) →
  ∃ i : nat,
    entries (applyAll st (first :: rest)) !! i = Some (TodoUpdate content)
    ∧ (∀ (j : nat) e, entries (applyAll st (first :: rest)) !! j = Some e
         → in_TodoUpdate e = true → j = i)
    ∧ Z.of_nat i
        <= findIndex in_TodoUpdate (entries (applyMessage first.1 st first.2))
    ∧ entries (applyAll st (first :: rest)) = [TodoUpdate content].
Proof.
  intros Hempty Hall Hlast.
  apply Forall_cons in Hall as [[c0 Hc0] Hall].
  destruct first as [now0 msg0]. simpl in Hc0. subst msg0.
  assert (Hfirst : entries (applyMessage now0 st (msg_todo_update c0))
                   = [] ++ [TodoUpdate c0]).
  { rewrite todo_update_append; rewrite Hempty; [done|constructor]. }
  destruct (todo_updates_keep_slot rest _ [] c0 Hall Hfirst)
    as (c & Hfinal & Hc); [constructor|].
  assert (c = content) as ->.
  { destruct rest as [|f rest'].
    - simpl in Hlast. injection Hlast as <- <-.
      unfold applyAll in Hfinal. cbn [fold_left] in Hfinal.
      rewrite Hfirst in Hfinal. apply app_inv_head in Hfinal. congruence.
    - apply (Hc now_last). exact Hlast. }
  change (applyAll st ((now0, msg_todo_update c0) :: rest))
    with (applyAll (applyMessage now0 st (msg_todo_update c0)) rest).
  rewrite Hfinal. exists 0%nat. split_and!; [done| |  |done].
  - intros [|j] e Hj _; [done|]. by destruct j.
  - cbn [fst snd]. rewrite Hfirst.
    by rewrite (findIndex_first in_TodoUpdate [] [] (TodoUpdate c0)).
Qed.


(** C7.  A [text_delta] appends its delta to the streaming buffer and leaves
    the log as it is, so two deltas leave the old buffer followed by both
    (by "ab" for the deltas "a" and "b"); a [text] message then appends a
    [Text] entry to the log and empties the buffer. *)
Theorem streaming_reassembly now1 now2 now3 st a b text :
  let st1 := applyMessage now1 st (msg_text_delta a) in
  let st2 := applyMessage now2 st1 (msg_text_delta b) in
  let st3 := applyMessage now3 st2 (msg_text text) in
  streamingBuffer st1 = streamingBuffer st +:+ a
  ∧ entries st1 = entries st
  ∧ streamingBuffer st2 = streamingBuffer st +:+ (a +:+ b)
  ∧ entries st2 = entries st
  ∧ streamingBuffer
      (applyMessage now2 (applyMessage now1 st (msg_text_delta "a"))
         (msg_text_delta "b"))
    = streamingBuffer st +:+ "ab"
  ∧ entries st3 = entries st2 ++ [Text text]
  ∧ streamingBuffer st3 = EmptyString.
Proof.
  destruct st; cbn. split_and!; try done; by rewrite append_assoc.
Qed.

(** C8.  A message whose discriminator is none of the [case] labels leaves
    the state as it is. *)
Theorem unknown_message_ignored now st msg :
  msg_type msg ∉ case_labels → applyMessage now st msg = st.
Proof.
  intros Hunknown. destruct msg; try done;
    exfalso; apply Hunknown; apply list_elem_of_In; cbn; tauto.
Qed.

(** C9.  Except for a snapshot, a message leaves the log as it is, or
    appends one or more entries at its end, or (a [todo_update] when the
    log already holds a [TodoUpdate]) replaces the first [TodoUpdate]
    at its index. *)
Theorem entries_append_only now st msg :
  msg_type msg ≠ "snapshot" →
  entries (applyMessage now st msg) = entries st
  ∨ (∃ added, added ≠ []
       ∧ entries (applyMessage now st msg) = entries st ++ added)
  ∨ (∃ content (i : nat) old,
       msg = msg_todo_update content
       ∧ entries st !! i = Some (TodoUpdate old)
       ∧ (∀ (j : nat) e, entries st !! j = Some e → (j < i)%nat
            → in_TodoUpdate e = false)
       ∧ entries (applyMessage now st msg)
         = <[i := TodoUpdate content]> (entries st)).
Proof.
  intros Hnot_snapshot.
  destruct msg; try done;
    try (left; by destruct st);
    try (right; left; destruct st; cbn; eexists; split; [|reflexivity]; done).
  destruct (findIndex_todo_cases (entries st))
    as [[Hidx Hnone]|(i & old & Hidx & Hi & Hleast)].
  - right; left. exists [TodoUpdate content]. split; [done|].
    by apply todo_update_append.
  - right; right. exists content, i, old. split_and!; [done..|].
    cbn. rewrite Hidx. destruct (Z.leb_spec 0 (Z.of_nat i)); [|lia].
    rewrite entries_set_entries. unfold array_set. by rewrite Nat2Z.id.
Qed.

End ReducerClaims.

(** * Properties of the entry resolver *)

Section Resolver.

Implicit Types (entries log pre : list AgentEntry) (e : AgentEntry).

Lemma js_index_nat {A} (arr : list A) (i : nat) :
  js_index arr (Z.of_nat i) = arr !! i.
Proof.
  unfold js_index. destruct (Z.ltb_spec (Z.of_nat i) 0); [lia|].
  by rewrite Nat2Z.id.
Qed.

Lemma js_index_succ {A} (arr : list A) (i : nat) :
  js_index arr (Z.of_nat i + 1) = arr !! Datatypes.S i.
Proof. by rewrite <- js_index_nat, Nat2Z.inj_succ. Qed.

Lemma js_index_pred {A} (arr : list A) (i : nat) :
  js_index arr (Z.of_nat i - 1)
  = match i with O => None | Datatypes.S k => arr !! k end.
Proof.
  destruct i as [|k]; [done|].
  rewrite <- js_index_nat. f_equal. lia.
Qed.

Lemma resolve_step_pushed entries resolved i :
  resolve_step entries resolved i = resolved ++ pushed_at entries i.
Proof.
  unfold pushed_at, resolve_step.
  repeat case_match; by rewrite ?app_nil_r.
Qed.

Lemma pushed_at_emit entries i e :
  js_index entries i = Some e →
  pushed_at entries i
  = emit (js_index entries (i - 1)) e (js_index entries (i + 1)).
Proof.
  intros Hi. unfold pushed_at, resolve_step, emit. rewrite Hi.
  repeat case_match; simplify_eq/=; done.
Qed.

Lemma fold_resolve_step entries idxs : ∀ resolved,
  fold_left (resolve_step entries) idxs resolved
  = resolved ++ concat (pushed_at entries <$> idxs).
Proof.
  induction idxs as [|i idxs IH]; intros resolved; cbn.
  - by rewrite app_nil_r.
  - by rewrite IH, resolve_step_pushed, app_assoc.
Qed.

Lemma resolveEntries_pushed entries :
  resolveEntries entries
  = concat (pushed_at entries <$> loop_indices (length entries)).
Proof. unfold resolveEntries. by rewrite fold_resolve_step. Qed.

(** The iterations over a suffix of the log compute the recursive scan of
    that suffix, started with the entry before it. *)
Lemma scan_suffix log : ∀ pre,
  concat (pushed_at (pre ++ log)
            <$> (Z.of_nat <$> seq (length pre) (length log)))
  = resolve_from (last pre) log.
Proof.
  induction log as [|e rest IH]; intros pre; [done|].
  cbn [length seq fmap list_fmap concat resolve_from].
  f_equal.
  - rewrite (pushed_at_emit _ _ e).
    + rewrite js_index_pred, js_index_succ. f_equal.
      * destruct pre as [|x pre' _] using rev_ind; [done|].
        rewrite last_snoc, length_app, Nat.add_1_r, <- app_assoc.
        by apply list_lookup_middle.
      * rewrite (lookup_app_r pre) by lia.
        replace (Datatypes.S (length pre) - length pre)%nat with 1%nat by lia.
        by destruct rest.
    + rewrite js_index_nat. by apply list_lookup_middle.
  - specialize (IH (pre ++ [e])).
    rewrite <- app_assoc, length_app, last_snoc in IH. cbn in IH.
    by rewrite Nat.add_1_r in IH.
Qed.

Lemma resolveEntries_resolve_from entries :
  resolveEntries entries = resolve_from None entries.
Proof. rewrite resolveEntries_pushed. apply (scan_suffix entries []). Qed.

Lemma count_results_from log : ∀ prev,
  (length (filter (λ r, has_result r = true) (resolve_from prev log))
   + (if pairs_with prev (head log) then 1 else 0))%nat
  = length (filter (λ e, in_ToolResult e = true) log).
Proof.
  induction log as [|e rest IH]; intros prev.
  - by destruct prev as [[]|].
  - cbn [resolve_from]. rewrite filter_app, length_app.
    assert (Hlocal :
      (length (filter (λ r, has_result r = true) (emit prev e (head rest)))
       + (if pairs_with prev (Some e) then 1 else 0))%nat
      = ((if in_ToolResult e then 1 else 0)
         + (if pairs_with (Some e) (head rest) then 1 else 0))%nat).
    { unfold emit, pairs_with.
      destruct e as [| name arguments | name result is_error | |]; cbn.
      - by destruct prev as [[]|].
      - destruct (head rest) as [[| | next_name ? ? | |]|];
          try (by destruct prev as [[]|]).
        rewrite (String.eqb_sym next_name name).
        destruct (String.eqb name next_name); by destruct prev as [[]|].
      - destruct prev as [[| prev_name ? | | |]|]; try done.
        by destruct (String.eqb prev_name name).
      - by destruct prev as [[]|].
      - by destruct prev as [[]|]. }
    specialize (IH (Some e)).
    cbn [head]. rewrite filter_cons.
    destruct (decide (in_ToolResult e = true)) as [He|He];
      [rewrite He in Hlocal|apply not_true_is_false in He; rewrite He in Hlocal];
      cbn [length]; lia.
Qed.

Lemma count_results entries :
  length (filter (λ r, has_result r = true) (resolveEntries entries))
  = length (filter (λ e, in_ToolResult e = true) entries).
Proof.
  rewrite resolveEntries_resolve_from, <- (count_results_from entries None).
  cbn. lia.
Qed.

End Resolver.

Section ResolverClaims.

Implicit Types (entries : list AgentEntry) (e : AgentEntry).

Lemma pushed_at_nat entries (i : nat) e :
  entries !! i = Some e →
  pushed_at entries (Z.of_nat i)
  = emit (match i with O => None | Datatypes.S k => entries !! k end)
      e (entries !! Datatypes.S i).
Proof.
  intros Hi. rewrite (pushed_at_emit _ _ e) by by rewrite js_index_nat.
  by rewrite js_index_pred, js_index_succ.
Qed.

Lemma pushed_at_undefined entries i :
  js_index entries i = None → pushed_at entries i = [].
Proof. intros Hi. unfold pushed_at, resolve_step. by rewrite Hi. Qed.

(** What the iteration at a [ToolExecuting] pushes: a [tool] entry, completed
    exactly when the entry at the next index is a [ToolResult] of the same
    name. *)
Lemma pushed_at_executing entries (i : nat) name arguments :
  entries !! i = Some (ToolExecuting name arguments) →
  pushed_at entries (Z.of_nat i)
  = match entries !! Datatypes.S i with
    | Some (ToolResult next_name result is_error) =>
        if String.eqb next_name name
        then [r_tool name arguments (Some result) (Some is_error)]
        else [r_tool name arguments None None]
    | _ => [r_tool name arguments None None]
    end.
Proof. intros Hi. by rewrite (pushed_at_nat _ _ _ Hi). Qed.

(** What the iteration at a [ToolResult] pushes: nothing when the entry at
    the previous index is a [ToolExecuting] of the same name, an
    [orphan_result] otherwise. *)
Lemma pushed_at_result entries (j : nat) name result is_error :
  entries !! j = Some (ToolResult name result is_error) →
  pushed_at entries (Z.of_nat j)
  = if pairs_with (js_index entries (Z.of_nat j - 1))
         (Some (ToolResult name result is_error))
    then [] else [r_orphan_result name result is_error].
Proof.
  intros Hj. rewrite (pushed_at_nat _ _ _ Hj), js_index_pred. cbn.
  destruct j as [|k]; [done|].
  destruct (entries !! k) as [[| prev_name ? | | |]|]; try done.
Qed.

(** C2, as the code has it.  A [ToolExecuting] directly followed by a
    [ToolResult] of the same name resolves to one completed [tool] entry.
    With a [Text] between them the result is a pending [tool] entry, the
    [text] entry and an [orphan_result].  In general the resolved list is
    what the iterations push, one index after the other, and pairing looks
    at adjacent indices only: the iteration at a [ToolExecuting] pushes its
    [tool] entry completed with the entry at the next index when that is a
    [ToolResult] of the same name, and pending in every other case; the
    iteration at a [ToolResult] pushes nothing when the entry at the previous
    index is a [ToolExecuting] of the same name, and its [orphan_result] in
    every other case.  So when one or more entries stand between a
    [ToolExecuting] and a [ToolResult] of the same name, the [ToolExecuting]
    is never completed with that result, and the [ToolResult] is an
    [orphan_result] unless the entry right before it is itself a
    [ToolExecuting] of that name, which then takes the result. *)
Theorem pairing_is_adjacent :
  (∀ name arguments result is_error,
     resolveEntries
       [ToolExecuting name arguments; ToolResult name result is_error]
     = [r_tool name arguments (Some result) (Some is_error)])
  ∧ (∀ name arguments x result is_error,
       resolveEntries
         [ToolExecuting name arguments; Text x;
          ToolResult name result is_error]
       = [r_tool name arguments None None; r_text x;
          r_orphan_result name result is_error])
  ∧ (∀ entries (i : nat) name arguments between result is_error,
       entries !! i = Some (ToolExecuting name arguments) →
       entries !! (i + 1)%nat = Some between →
       entries !! (i + 2)%nat = Some (ToolResult name result is_error) →
       ((∀ r err, between ≠ ToolResult name r err) →
          pushed_at entries (Z.of_nat i) = [r_tool name arguments None None])
       ∧ ((∀ args, between ≠ ToolExecuting name args) →
          pushed_at entries (Z.of_nat (i + 2))
          = [r_orphan_result name result is_error])
       ∧ (∀ args, between = ToolExecuting name args →
          pushed_at entries (Z.of_nat (i + 1))
          = [r_tool name args (Some result) (Some is_error)]
          ∧ pushed_at entries (Z.of_nat (i + 2)) = []))
  ∧ (∀ entries,
       resolveEntries entries
       = concat (pushed_at entries <$> loop_indices (length entries)))
  ∧ (∀ entries (i : nat) name arguments,
       entries !! i = Some (ToolExecuting name arguments) →
       (∀ result is_error,
          entries !! Datatypes.S i = Some (ToolResult name result is_error) →
          pushed_at entries (Z.of_nat i)
          = [r_tool name arguments (Some result) (Some is_error)])
       ∧ ((∀ result is_error,
             entries !! Datatypes.S i ≠ Some (ToolResult name result is_error)) →
          pushed_at entries (Z.of_nat i) = [r_tool name arguments None None]))
  ∧ (∀ entries (j : nat) name result is_error,
       entries !! j = Some (ToolResult name result is_error) →
       (∀ arguments,
          js_index entries (Z.of_nat j - 1)
            = Some (ToolExecuting name arguments) →
          pushed_at entries (Z.of_nat j) = [])
       ∧ ((∀ arguments,
             js_index entries (Z.of_nat j - 1)
               ≠ Some (ToolExecuting name arguments)) →
          pushed_at entries (Z.of_nat j)
          = [r_orphan_result name result is_error]))
  ∧ (∀ entries (i j : nat) name arguments result is_error,
       entries !! i = Some (ToolExecuting name arguments) →
       entries !! j = Some (ToolResult name result is_error) →
       (i + 1 < j)%nat →
       (pushed_at entries (Z.of_nat i) = [r_tool name arguments None None]
        ∨ ∃ next_result next_error,
            entries !! Datatypes.S i
              = Some (ToolResult name next_result next_error)
            ∧ pushed_at entries (Z.of_nat i)
              = [r_tool name arguments (Some next_result) (Some next_error)])
       ∧ (pushed_at entries (Z.of_nat j)
            = [r_orphan_result name result is_error]
          ∨ ∃ prev_arguments,
              entries !! (j - 1)%nat = Some (ToolExecuting name prev_arguments)
              ∧ pushed_at entries (Z.of_nat (j - 1))
                = [r_tool name prev_arguments (Some result) (Some is_error)]
              ∧ pushed_at entries (Z.of_nat j) = [])).
Proof.
  assert (Hexec : ∀ entries (i : nat) name arguments,
    entries !! i = Some (ToolExecuting name arguments) →
    (∀ result is_error,
       entries !! Datatypes.S i = Some (ToolResult name result is_error) →
       pushed_at entries (Z.of_nat i)
       = [r_tool name arguments (Some result) (Some is_error)])
    ∧ ((∀ result is_error,
          entries !! Datatypes.S i ≠ Some (ToolResult name result is_error)) →
       pushed_at entries (Z.of_nat i) = [r_tool name arguments None None])).
  { intros entries i name arguments Hi.
    rewrite (pushed_at_executing _ _ _ _ Hi). split.
    - intros result is_error ->. by rewrite String.eqb_refl.
    - intros Hnot.
      destruct (entries !! Datatypes.S i) as [[| | next_name r err | |]|];
        try done.
      destruct (String.eqb_spec next_name name) as [->|]; [|done].
      by destruct (Hnot r err). }
  assert (Hres : ∀ entries (j : nat) name result is_error,
    entries !! j = Some (ToolResult name result is_error) →
    (∀ arguments,
       js_index entries (Z.of_nat j - 1)
         = Some (ToolExecuting name arguments) →
       pushed_at entries (Z.of_nat j) = [])
    ∧ ((∀ arguments,
          js_index entries (Z.of_nat j - 1)
            ≠ Some (ToolExecuting name arguments)) →
       pushed_at entries (Z.of_nat j)
       = [r_orphan_result name result is_error])).
  { intros entries j name result is_error Hj.
    rewrite (pushed_at_result _ _ _ _ _ Hj). split.
    - intros arguments ->. cbn. by rewrite String.eqb_refl.
    - intros Hnot.
      destruct (js_index entries (Z.of_nat j - 1))
        as [[| prev_name args | | |]|]; try done.
      cbn. destruct (String.eqb_spec prev_name name) as [->|]; [|done].
      by destruct (Hnot args). }
  split_and!.
  - intros. rewrite resolveEntries_resolve_from. cbn.
    by rewrite String.eqb_refl.
  - intros. by rewrite resolveEntries_resolve_from.
  - intros entries i name arguments between result is_error Hi Hmid Hres'.
    rewrite Nat.add_1_r in Hmid.
    replace (i + 2)%nat with (Datatypes.S (Datatypes.S i)) in * by lia.
    rewrite Nat.add_1_r.
    split_and!.
    + intros Hnot. rewrite (pushed_at_executing _ _ _ _ Hi), Hmid.
      destruct between as [| | next_name r err | |]; try done.
      destruct (String.eqb_spec next_name name) as [->|]; [|done].
      by destruct (Hnot r err).
    + intros Hnot. rewrite (pushed_at_nat _ _ _ Hres'), Hmid. cbn.
      destruct between as [| prev_name args | | |]; try done.
      destruct (String.eqb_spec prev_name name) as [->|]; [|done].
      by destruct (Hnot args).
    + intros args ->. split.
      * rewrite (pushed_at_executing _ _ _ _ Hmid), Hres'.
        by rewrite String.eqb_refl.
      * rewrite (pushed_at_nat _ _ _ Hres'), Hmid. cbn.
        by rewrite String.eqb_refl.
  - apply resolveEntries_pushed.
  - exact Hexec.
  - exact Hres.
  - intros entries i j name arguments result is_error Hi Hj Hgap.
    destruct (Hexec entries i name arguments Hi) as [Hdone Hpending].
    destruct (Hres entries j name result is_error Hj) as [Hskip Horphan].
    split.
    + destruct (entries !! Datatypes.S i)
        as [[| | next_name r err | |]|] eqn:Hnext;
        try (left; apply Hpending; intros ? ?; discriminate).
      destruct (String.eqb_spec next_name name) as [->|Hne].
      * right. exists r, err. split; [done|]. by apply Hdone.
      * left. apply Hpending. intros ? ?. congruence.
    + destruct j as [|k]; [lia|].
      replace (Z.of_nat (Datatypes.S k) - 1) with (Z.of_nat k) in * by lia.
      rewrite js_index_nat in Hskip, Horphan.
      replace (Datatypes.S k - 1)%nat with k by lia.
      destruct (entries !! k) as [[| prev_name args | | |]|] eqn:Hk;
        try (left; apply Horphan; intros ?; discriminate).
      destruct (String.eqb_spec prev_name name) as [->|Hne].
      * right. exists args. split_and!; [done| |by apply (Hskip args)].
        by apply (Hexec entries k name args Hk).
      * left. apply Horphan. intros ?. congruence.
Qed.

(** C10.  The resolved list is the concatenation of what the iterations
    push.  A resolved entry that carries a result is either the [tool]
    entry of a [ToolExecuting] completed with the [ToolResult] at the next
    index, or the [orphan_result] of the [ToolResult] at its own index.
    Each [ToolResult] is accounted for once: when the entry before it is a
    [ToolExecuting] of the same name that iteration pushes the completed
    [tool] entry and the iteration at the [ToolResult] pushes nothing;
    otherwise the iteration at the [ToolResult] pushes its [orphan_result]
    and the iteration before pushes no completed [tool] entry.  So there
    are as many resolved entries with a result as [ToolResult] entries. *)
Theorem tool_result_resolved_once entries :
  resolveEntries entries
  = concat (pushed_at entries <$> loop_indices (length entries))
  ∧ (∀ (i : nat) r,
       r ∈ pushed_at entries (Z.of_nat i) → has_result r = true →
       (∃ name arguments result is_error,
          r = r_tool name arguments (Some result) (Some is_error)
          ∧ entries !! i = Some (ToolExecuting name arguments)
          ∧ entries !! Datatypes.S i = Some (ToolResult name result is_error))
       ∨ (∃ name result is_error,
            r = r_orphan_result name result is_error
            ∧ entries !! i = Some (ToolResult name result is_error)))
  ∧ (∀ (j : nat) name result is_error,
       entries !! j = Some (ToolResult name result is_error) →
       (∃ arguments,
          js_index entries (Z.of_nat j - 1)
            = Some (ToolExecuting name arguments)
          ∧ pushed_at entries (Z.of_nat j - 1)
            = [r_tool name arguments (Some result) (Some is_error)]
          ∧ pushed_at entries (Z.of_nat j) = [])
       ∨ ((∀ arguments,
             js_index entries (Z.of_nat j - 1)
               ≠ Some (ToolExecuting name arguments))
          ∧ pushed_at entries (Z.of_nat j)
            = [r_orphan_result name result is_error]
          ∧ Forall (λ r, is_paired r = false)
              (pushed_at entries (Z.of_nat j - 1))))
  ∧ length (filter (λ r, has_result r = true) (resolveEntries entries))
    = length (filter (λ e, in_ToolResult e = true) entries).
Proof.
  split_and!.
  - apply resolveEntries_pushed.
  - intros i r Hin Hres.
    destruct (entries !! i) as [e|] eqn:Hi.
    + rewrite (pushed_at_nat _ _ _ Hi) in Hin.
      destruct e as [| name arguments | name result is_error | |]; cbn in Hin.
      * apply list_elem_of_singleton in Hin as ->. discriminate.
      * left.
        destruct (entries !! Datatypes.S i)
          as [[| | next_name result is_error | |]|] eqn:Hnext;
          try (apply list_elem_of_singleton in Hin as ->; discriminate).
        destruct (String.eqb_spec next_name name) as [->|];
          apply list_elem_of_singleton in Hin as ->; [|discriminate].
        by exists name, arguments, result, is_error.
      * right.
        assert (r = r_orphan_result name result is_error) as ->.
        { destruct i as [|k]; [by apply list_elem_of_singleton in Hin|].
          destruct (entries !! k) as [[| prev_name ? | | |]|];
            try (by apply list_elem_of_singleton in Hin).
          destruct (String.eqb prev_name name);
            [by apply elem_of_nil in Hin
            |by apply list_elem_of_singleton in Hin]. }
        by exists name, result, is_error.
      * apply list_elem_of_singleton in Hin as ->. discriminate.
      * apply list_elem_of_singleton in Hin as ->. discriminate.
    + rewrite pushed_at_undefined in Hin by by rewrite js_index_nat.
      by apply elem_of_nil in Hin.
  - intros j name result is_error Hj.
    rewrite (pushed_at_result _ _ _ _ _ Hj).
    destruct j as [|k].
    { right. split_and!; [done..|].
      by rewrite pushed_at_undefined. }
    replace (Z.of_nat (Datatypes.S k) - 1) with (Z.of_nat k) by lia.
    rewrite js_index_nat.
    destruct (entries !! k) as [prev|] eqn:Hk.
    2:{ right. split_and!; [done..|].
        rewrite pushed_at_undefined by by rewrite js_index_nat. constructor. }
    destruct prev as [| prev_name arguments | | |];
      try (right; split_and!; [done..|];
           rewrite (pushed_at_nat _ _ _ Hk); cbn;
           repeat case_match; by repeat constructor).
    cbn. destruct (String.eqb_spec prev_name name) as [->|Hne].
    + left. exists arguments. split_and!; [done| |done].
      rewrite (pushed_at_executing _ _ _ _ Hk), Hj.
      by rewrite String.eqb_refl.
    + right. split_and!; [congruence|done|].
      rewrite (pushed_at_executing _ _ _ _ Hk), Hj.
      destruct (String.eqb_spec name prev_name); [congruence|].
      by repeat constructor.
  - apply count_results.
Qed.

End ResolverClaims.

(** * Properties of the connection manager *)

Section Backoff.

Implicit Types (m : Manager) (evs : list SocketEvent).

Lemma handleAll_snoc m evs ev :
  handleAll m (evs ++ [ev]) = handle (handleAll m evs) ev.
Proof. unfold handleAll. by rewrite fold_left_app. Qed.

Lemma closures_snoc evs ev :
  closures (evs ++ [ev])
  = (closures evs + (if is_close ev then 1 else 0))%nat.
Proof.
  unfold closures. rewrite filter_app, length_app. f_equal.
  by destruct ev.
Qed.

(** One failure doubles the capped delay. *)
Lemma onclose_doubles m (k : Z) :
  cancelled m = false → 1 <= k →
  Z.min (retryDelayRef m) MAX_RETRY_DELAY = Z.min (1000 * k) MAX_RETRY_DELAY →
  Z.min (retryDelayRef (onclose m)) MAX_RETRY_DELAY
  = Z.min (1000 * (2 * k)) MAX_RETRY_DELAY.
Proof.
  intros Hlive Hk Hinv. unfold onclose. rewrite Hlive. cbn.
  unfold MAX_RETRY_DELAY in *. lia.
Qed.

(** Along a run of failures the manager stays live, and its capped delay is
    the capped power of two of the number of closures so far. *)
Lemma failing_run evs : ∀ m,
  cancelled m = false → retryDelayRef m = 1000 →
  forallb keeps_failing evs = true →
  cancelled (handleAll m evs) = false
  ∧ Z.min (retryDelayRef (handleAll m evs)) MAX_RETRY_DELAY
    = Z.min (1000 * 2 ^ Z.of_nat (closures evs)) MAX_RETRY_DELAY.
Proof.
  induction evs as [|ev evs IH] using rev_ind; intros m Hlive Hfloor Hrun.
  - cbn. by rewrite Hfloor.
  - rewrite forallb_app in Hrun. apply andb_true_iff in Hrun as [Hrun Hev].
    cbn in Hev. rewrite andb_true_r in Hev.
    destruct (IH m Hlive Hfloor Hrun) as [Hlive' Hinv].
    rewrite handleAll_snoc, closures_snoc.
    set (m' := handleAll m evs) in *.
    destruct ev; try discriminate; cbn [handle is_close].
    + rewrite Nat.add_0_r. by destruct frame.
    + split; [unfold onclose; by rewrite Hlive'|].
      rewrite Nat2Z.inj_add, Z.pow_add_r, Z.pow_1_r by lia.
      rewrite (Z.mul_comm _ 2).
      apply onclose_doubles; [done| |done].
      pose proof (Z.pow_pos_nonneg 2 (Z.of_nat (closures evs))). lia.
    + rewrite Nat.add_0_r. unfold ontimeout, connect. cbn.
      by rewrite Hlive'.
Qed.

(** C4.  From a live manager whose delay is at its floor (as on mount, and
    after every open), the closure that follows a run of events with [n]
    closures and no open schedules the reconnect after
    [min (1000 * 2 ^ n) 16000] ms; and an open puts the delay back to 1000,
    so that the closure after it schedules 1000 ms. *)
Theorem backoff_bounds :
  (∀ m evs,
     cancelled m = false → retryDelayRef m = 1000 →
     forallb keeps_failing evs = true →
     timeoutId (onclose (handleAll m evs))
     = Some (Z.min (1000 * 2 ^ Z.of_nat (closures evs)) 16000))
  ∧ (∀ m,
       retryDelayRef (onopen m) = 1000
       ∧ cancelled (onopen m) = cancelled m
       ∧ (cancelled m = false →
          timeoutId (onclose (onopen m)) = Some 1000))
  ∧ retryDelayRef mount = 1000 ∧ cancelled mount = false.
Proof.
  split_and!; [| |done..].
  - intros m evs Hlive Hfloor Hrun.
    destruct (failing_run evs m Hlive Hfloor Hrun) as [Hlive' Hinv].
    unfold onclose. rewrite Hlive'. cbn. f_equal. exact Hinv.
  - intros m. split_and!; [done..|].
    intros Hlive. unfold onclose. cbn. by rewrite Hlive.
Qed.

End Backoff.

(** * Properties of the connection toast *)

Section Toast.

Implicit Types (t : Toast).

(** C5, as the code has it.  When the flag seen before was disconnected, a
    render with [connected] moves the toast to [reconnected]; it stays
    there for 2000 ms, is then [exiting] for 350 ms, and then [hidden].
    When the flag seen before was connected, a render with [connected]
    changes nothing and starts no timer; in particular a toast whose first
    render already sees [connected] stays [hidden].  On the page the toast
    is mounted with the socket hook, whose flag starts disconnected: the
    toast is [disconnected] from its first render, and the first successful
    open is announced as [reconnected] like every later one. *)
Theorem reconnected_gating :
  (∀ t, prevConnectedRef t = false →
     phaseRef (observe t true) = reconnected
     ∧ (∀ ms, 0 <= ms < 2000 →
          phaseRef (elapse ms (observe t true)) = reconnected)
     ∧ phaseRef (elapse 2000 (observe t true)) = exiting
     ∧ (∀ ms, 0 <= ms < 350 →
          phaseRef (elapse ms (elapse 2000 (observe t true))) = exiting)
     ∧ phaseRef (elapse 350 (elapse 2000 (observe t true))) = hidden)
  ∧ (∀ t, prevConnectedRef t = true →
       phaseRef (observe t true) = phaseRef t
       ∧ timer (observe t true) = None
       ∧ exitTimer (observe t true) = None)
  ∧ phaseRef (observe toast_mount true) = hidden
  ∧ phaseRef (toast_after []) = disconnected
  ∧ phaseRef (toast_after [ev_open]) = reconnected.
Proof.
  split_and!; [| |done..].
  - intros t Hprev. unfold observe, effect. cbn. rewrite Hprev. cbn.
    split_and!; try reflexivity.
    + intros ms Hms. unfold elapse. cbn.
      destruct (Z.leb_spec 2000 ms); [lia|]. cbn.
      by destruct (Z.leb_spec 2350 ms); [lia|].
    + intros ms Hms.
      by destruct (Z.leb_spec (2350 - 2000) ms); [lia|].
  - intros t Hprev. unfold observe, effect. cbn. by rewrite Hprev.
Qed.

End Toast.

(** * Concrete runs *)

(** The theorems with premises, each applied to a concrete input. *)

Lemma todo_singleton_witness :
  entries INITIAL_STATE = []
  ∧ (∃ i : nat,
        entries (applyAll INITIAL_STATE
                   [("09:00:00", msg_todo_update "draft");
                    ("09:00:05", msg_todo_update "final")]) !! i
        = Some (TodoUpdate "final")).
Proof.
  split; [reflexivity|].
  destruct (todo_singleton INITIAL_STATE
              ("09:00:00", msg_todo_update "draft")
              [("09:00:05", msg_todo_update "final")]
              "09:00:05" "final") as (i & Hi & _).
  - reflexivity.
  - repeat constructor; eexists; reflexivity.
  - reflexivity.
  - exists i. exact Hi.
Defined.


Lemma unknown_message_ignored_witness :
  (msg_type (msg_other "heartbeat") ∉ case_labels)
  ∧ applyMessage "09:00:00" INITIAL_STATE (msg_other "heartbeat")
    = INITIAL_STATE.
Proof.
  assert (Hunknown : msg_type (msg_other "heartbeat") ∉ case_labels).
  { intros Hin. apply list_elem_of_In in Hin. cbn in Hin.
    repeat (destruct Hin as [Hin|Hin]; [discriminate Hin|]). exact Hin. }
  split; [exact Hunknown|].
  apply (unknown_message_ignored "09:00:00" INITIAL_STATE
           (msg_other "heartbeat") Hunknown).
Defined.

Lemma entries_append_only_witness :
  msg_type (msg_todo_update "final") ≠ "snapshot"
  ∧ (entries (applyMessage "09:00:00"
                (set_entries [Text "hi"; TodoUpdate "draft"] INITIAL_STATE)
                (msg_todo_update "final"))
     = [Text "hi"; TodoUpdate "final"]).
Proof.
  split; [discriminate|].
  destruct (entries_append_only "09:00:00"
              (set_entries [Text "hi"; TodoUpdate "draft"] INITIAL_STATE)
              (msg_todo_update "final")) as [H|[H|H]].
  - discriminate.
  - reflexivity.
  - reflexivity.
  - reflexivity.
Defined.

Lemma pairing_is_adjacent_witness :
  [ToolExecuting "grep" "{}"; Text "a"; Text "b"; ToolResult "grep" "ok" false]
    !! 0%nat = Some (ToolExecuting "grep" "{}")
  ∧ pushed_at
      [ToolExecuting "grep" "{}"; Text "a"; Text "b";
       ToolResult "grep" "ok" false]
      (Z.of_nat 0)
    = [r_tool "grep" "{}" None None].
Proof.
  split; [reflexivity|].
  apply (proj1 (proj2 (proj2 (proj2 (proj2 pairing_is_adjacent))))
           [ToolExecuting "grep" "{}"; Text "a"; Text "b";
            ToolResult "grep" "ok" false]
           0%nat "grep" "{}" eq_refl).
  intros result is_error. discriminate.
Defined.

Lemma tool_result_resolved_once_witness :
  [ToolExecuting "grep" "{}"; ToolResult "grep" "ok" false] !! 1%nat
  = Some (ToolResult "grep" "ok" false)
  ∧ pushed_at [ToolExecuting "grep" "{}"; ToolResult "grep" "ok" false]
      (Z.of_nat 1)
    = [].
Proof.
  split; [reflexivity|].
  destruct (proj1 (proj2 (proj2
              (tool_result_resolved_once
                 [ToolExecuting "grep" "{}"; ToolResult "grep" "ok" false])))
              1%nat "grep" "ok" false) as [(args & _ & _ & H)|(_ & H & _)].
  - reflexivity.
  - exact H.
  - discriminate H.
Defined.

Lemma backoff_bounds_witness :
  cancelled mount = false
  ∧ retryDelayRef mount = 1000
  ∧ forallb keeps_failing [ev_close; ev_timeout; ev_close; ev_timeout] = true
  ∧ timeoutId
      (onclose (handleAll mount [ev_close; ev_timeout; ev_close; ev_timeout]))
    = Some 4000.
Proof.
  split_and!; [reflexivity..|].
  apply (proj1 backoff_bounds mount
           [ev_close; ev_timeout; ev_close; ev_timeout]);
    reflexivity.
Defined.

Lemma reconnected_gating_witness :
  prevConnectedRef (observe toast_mount false) = false
  ∧ phaseRef (observe (observe toast_mount false) true) = reconnected.
Proof.
  split; [reflexivity|].
  apply (proj1 reconnected_gating (observe toast_mount false)).
  reflexivity.
Defined.

(** Runs on which the code differs from the specification's wording. *)

(** C2.  A [ToolResult] that an intervening entry separates from a
    [ToolExecuting] of its name is paired all the same when the intervening
    entry is itself a [ToolExecuting] of that name: the outcome of the first
    call is shown on the second. *)
Lemma separated_result_is_paired :
  resolveEntries
    [ToolExecuting "grep" "first"; ToolExecuting "grep" "second";
     ToolResult "grep" "3 matches" false]
  = [r_tool "grep" "first" None None;
     r_tool "grep" "second" (Some "3 matches") (Some false)].
Proof. reflexivity. Qed.

(** C5.  The page mounts the toast while the socket is connecting, so the
    toast has seen a disconnected flag when the very first open arrives, and
    announces it. *)
Lemma first_connection_is_announced :
  flags_seen mount [ev_open] = [true]
  ∧ phaseRef (toast_after []) = disconnected
  ∧ phaseRef (toast_after [ev_open]) = reconnected.
Proof. by split_and!. Qed.


(** * Further properties of the protocol reducer *)

Section ReducerRuns.

Implicit Types (now : string) (st : AgentState) (msg : WsServerMessage).
Implicit Types (frames : list (string * WsServerMessage)).

Lemma applyAll_cons st now msg frames :
  applyAll st ((now, msg) :: frames) = applyAll (applyMessage now st msg) frames.
Proof. reflexivity. Qed.

Lemma token_usage_step now st msg :
  totalPromptTokens (applyMessage now st msg)
  = totalPromptTokens st + prompt_tokens_of (now, msg)
  ∧ totalCompletionTokens (applyMessage now st msg)
    = totalCompletionTokens st + completion_tokens_of (now, msg).
Proof.
  unfold prompt_tokens_of, completion_tokens_of.
  destruct msg; destruct st; cbn; try (split; lia).
  all: repeat case_match; cbn; try (split; lia).
Qed.

(** X1.  Along a run in which the token counts are integers and every
    running total stays within the range where the additions are exact
    (magnitude at most 2^53), the two token totals after the run are the
    totals before it plus everything the [token_usage] frames of the run
    reported; snapshots and all other frames leave them as they are. *)
Theorem token_totals_accumulate st frames :
  exact_token_sums st frames →
  totalPromptTokens (applyAll st frames)
  = totalPromptTokens st + sum_Z (prompt_tokens_of <$> frames)
  ∧ totalCompletionTokens (applyAll st frames)
    = totalCompletionTokens st + sum_Z (completion_tokens_of <$> frames).
Proof.
  revert st. induction frames as [|[now msg] frames IH]; intros st Hexact.
  - cbn. split; lia.
  - destruct Hexact as [_ Hrest]. cbn [fst snd] in Hrest.
    rewrite applyAll_cons.
    destruct (IH (applyMessage now st msg) Hrest) as [-> ->].
    destruct (token_usage_step now st msg) as [-> ->].
    rewrite !fmap_cons. unfold sum_Z. cbn [fold_right]. split; lia.
Qed.

Lemma logs_step now st msg :
  is_snapshot msg = false →
  ∃ added, logs (applyMessage now st msg) = logs st ++ added
           ∧ length added = lines_added msg.
Proof.
  intros Hs. destruct msg; try discriminate; destruct st; cbn;
    try case_match; cbn;
    first [ exists []; by rewrite app_nil_r
          | eexists [_]; by split ].
Qed.

(** X2.  Without a snapshot the diagnostic log only grows at its end: after a
    run the old lines are still there, in place, followed by one line for each
    [log] frame and each frame that synthesizes a line. *)
Theorem logs_append_only st frames :
  Forall (λ frame, is_snapshot frame.2 = false) frames →
  ∃ added,
    logs (applyAll st frames) = logs st ++ added
    ∧ length added = sum_list (lines_added ∘ snd <$> frames).
Proof.
  revert st. induction frames as [|[now msg] frames IH]; intros st Hall.
  - exists []. by rewrite app_nil_r.
  - apply Forall_cons in Hall as [Hmsg Hall]. cbn in Hmsg.
    destruct (logs_step now st msg Hmsg) as (a1 & H1 & Hlen1).
    destruct (IH (applyMessage now st msg) Hall) as (a2 & H2 & Hlen2).
    exists (a1 ++ a2). rewrite applyAll_cons, H2, H1, app_assoc.
    split; [done|]. rewrite length_app, Hlen1, Hlen2. done.
Qed.

Lemma todo_count_app log1 log2 :
  todo_count (log1 ++ log2) = (todo_count log1 + todo_count log2)%nat.
Proof. unfold todo_count. by rewrite filter_app, length_app. Qed.

Lemma todo_count_cons e log :
  todo_count (e :: log)
  = ((if in_TodoUpdate e then 1 else 0) + todo_count log)%nat.
Proof.
  unfold todo_count. rewrite filter_cons.
  destruct (in_TodoUpdate e); by case_decide.
Qed.

Lemma todo_count_none log :
  Forall (λ e, in_TodoUpdate e = false) log → todo_count log = 0%nat.
Proof.
  induction 1 as [|e log He _ IH]; [done|].
  by rewrite todo_count_cons, He, IH.
Qed.

Lemma todo_count_step now st msg :
  is_snapshot msg = false →
  todo_count (entries (applyMessage now st msg))
  = match msg with
    | msg_todo_update _ => Nat.max 1 (todo_count (entries st))
    | _ => todo_count (entries st)
    end.
Proof.
  intros Hs.
  destruct msg; try discriminate;
    try (by destruct st);
    try (destruct st; cbn -[todo_count];
         rewrite todo_count_app, !todo_count_cons; cbn; lia).
  destruct (findIndex_todo_cases (entries st))
    as [[_ Hnone]|(i & old & _ & Hi & Hleast)].
  - rewrite (todo_update_append _ _ _ Hnone), todo_count_app.
    rewrite (todo_count_none _ Hnone), todo_count_cons. done.
  - pose proof (take_drop_middle _ _ _ Hi) as Hsplit.
    assert (Hpre : Forall (λ e, in_TodoUpdate e = false) (take i (entries st))).
    { apply Forall_lookup. intros j e Hj.
      apply lookup_take_Some in Hj as [Hj Hlt]. by apply (Hleast j). }
    rewrite (todo_update_replace now st _ _ old content (eq_sym Hsplit) Hpre).
    generalize dependent (take i (entries st)).
    generalize (drop (Datatypes.S i) (entries st)).
    intros post pre <- Hpre. rewrite !todo_count_app.
    rewrite (todo_count_none _ Hpre), !todo_count_cons. cbn. lia.
Qed.

(** X3.  A log that holds at most one [TodoUpdate] entry still holds at most
    one after any run of frames without a snapshot. *)
Theorem todo_at_most_one st frames :
  Forall (λ frame, is_snapshot frame.2 = false) frames →
  (todo_count (entries st) ≤ 1)%nat →
  (todo_count (entries (applyAll st frames)) ≤ 1)%nat.
Proof.
  revert st. induction frames as [|[now msg] frames IH]; intros st Hall Hst;
    [done|].
  apply Forall_cons in Hall as [Hmsg Hall]. cbn in Hmsg.
  rewrite applyAll_cons. apply IH; [done|].
  rewrite (todo_count_step now st msg Hmsg). destruct msg; lia.
Qed.

Lemma quiet_fields_step now st msg :
  is_snapshot msg = false →
  cycle (applyMessage now st msg) = cycle st
  ∧ nextCycleSecs (applyMessage now st msg) = nextCycleSecs st
  ∧ (running st = false → running (applyMessage now st msg) = false).
Proof.
  intros Hs. destruct msg; try discriminate; destruct st; cbn; try done.
  all: by repeat case_match.
Qed.

(** X4.  Only a snapshot sets [cycle] and [nextCycleSecs], and only a
    snapshot can set [running] again: a run of frames without a snapshot
    leaves the first two as they were, and a finished session finished. *)
Theorem only_snapshot_restarts st frames :
  Forall (λ frame, is_snapshot frame.2 = false) frames →
  cycle (applyAll st frames) = cycle st
  ∧ nextCycleSecs (applyAll st frames) = nextCycleSecs st
  ∧ (running st = false → running (applyAll st frames) = false)
  ∧ (∀ now, running (applyAll (applyMessage now st msg_finished) frames)
            = false).
Proof.
  revert st.
  assert (Hrun : ∀ frames st,
    Forall (λ frame, is_snapshot frame.2 = false) frames →
    cycle (applyAll st frames) = cycle st
    ∧ nextCycleSecs (applyAll st frames) = nextCycleSecs st
    ∧ (running st = false → running (applyAll st frames) = false)).
  { clear frames. induction frames as [|[now msg] frames IH]; intros st Hall;
      [done|].
    apply Forall_cons in Hall as [Hmsg Hall]. cbn in Hmsg.
    rewrite applyAll_cons.
    destruct (IH (applyMessage now st msg) Hall) as (-> & -> & Hr).
    destruct (quiet_fields_step now st msg Hmsg) as (-> & -> & Hr').
    auto. }
  intros st Hall. destruct (Hrun frames st Hall) as (Hc & Hn & Hr).
  split_and!; [done..|].
  intros now. apply (Hrun frames _ Hall). by destruct st.
Qed.

End ReducerRuns.

(** * Further properties of the entry resolver *)

Section ResolverComposition.

Implicit Types (log : list AgentEntry) (e : AgentEntry).

Lemma emit_next_irrelevant prev e next :
  pairs_with (Some e) next = false → emit prev e next = emit prev e None.
Proof.
  unfold emit, pairs_with. intros Hp.
  destruct e as [| name arguments | | |]; try done.
  destruct next as [[| | next_name ? ? | |]|]; try done.
  by rewrite (String.eqb_sym next_name name), Hp.
Qed.

Lemma resolve_from_prev_irrelevant prev log :
  pairs_with prev (head log) = false →
  resolve_from prev log = resolve_from None log.
Proof.
  destruct log as [|e rest]; [done|]. cbn [head resolve_from]. intros Hp.
  f_equal. unfold emit, pairs_with in *.
  destruct e; try done. destruct prev as [[| prev_name ? | | |]|]; try done.
  by rewrite Hp.
Qed.

Lemma resolve_from_app log1 : ∀ prev log2,
  pairs_with (last log1) (head log2) = false →
  log1 ≠ [] →
  resolve_from prev (log1 ++ log2)
  = resolve_from prev log1 ++ resolve_from None log2.
Proof.
  induction log1 as [|e rest IH]; intros prev log2 Hp Hne; [done|].
  destruct rest as [|e' rest'].
  - cbn [app resolve_from head last] in *.
    rewrite (emit_next_irrelevant _ _ _ Hp), app_nil_r.
    by rewrite (resolve_from_prev_irrelevant _ _ Hp).
  - change ((e :: e' :: rest') ++ log2) with (e :: (e' :: rest') ++ log2).
    cbn [resolve_from]. rewrite <- app_assoc. f_equal.
    apply IH; [|done]. by rewrite last_cons_cons in Hp.
Qed.

Lemma resolveEntries_split log1 log2 :
  pairs_with (last log1) (head log2) = false →
  resolveEntries (log1 ++ log2) = resolveEntries log1 ++ resolveEntries log2.
Proof.
  intros Hp. rewrite !resolveEntries_resolve_from.
  destruct log1 as [|e rest]; [done|]. by apply resolve_from_app.
Qed.

(** X5.  The resolver works piece by piece.  Cutting the log anywhere except
    between a [ToolExecuting] and the [ToolResult] of the same name that
    directly follows it, the resolved list of the whole is the resolved list
    of the first part followed by that of the second; and such an adjacent
    pair, wherever it stands, contributes exactly its one completed [tool]
    element between the resolved lists of what precedes and what follows. *)
Theorem resolver_is_local log1 log2 :
  (pairs_with (last log1) (head log2) = false →
   resolveEntries (log1 ++ log2) = resolveEntries log1 ++ resolveEntries log2)
  ∧ (∀ name arguments result is_error,
       resolveEntries
         (log1 ++ ToolExecuting name arguments
               :: ToolResult name result is_error :: log2)
       = resolveEntries log1
           ++ r_tool name arguments (Some result) (Some is_error)
           :: resolveEntries log2).
Proof.
  split; [apply resolveEntries_split|].
  intros name arguments result is_error.
  rewrite resolveEntries_split.
  2:{ unfold pairs_with. cbn. by destruct (last log1) as [[]|]. }
  f_equal.
  change (ToolExecuting name arguments :: ToolResult name result is_error
            :: log2)
    with ([ToolExecuting name arguments; ToolResult name result is_error]
            ++ log2).
  rewrite resolveEntries_split by done.
  rewrite (resolveEntries_resolve_from [_; _]). cbn.
  by rewrite String.eqb_refl.
Qed.

Lemma resolved_sizes_from log : ∀ prev,
  (length (resolve_from prev log)
   + length (filter (λ r, is_paired r = true) (resolve_from prev log))
   + (if pairs_with prev (head log) then 1 else 0))%nat
  = length log.
Proof.
  induction log as [|e rest IH]; intros prev.
  - by destruct prev as [[]|].
  - cbn [resolve_from]. rewrite filter_app, !length_app.
    assert (Hlocal :
      (length (emit prev e (head rest))
       + length (filter (λ r, is_paired r = true) (emit prev e (head rest)))
       + (if pairs_with prev (Some e) then 1 else 0))%nat
      = (1 + (if pairs_with (Some e) (head rest) then 1 else 0))%nat).
    { unfold emit, pairs_with.
      destruct e as [| name arguments | name result is_error | |]; cbn.
      - by destruct prev as [[]|].
      - destruct (head rest) as [[| | next_name ? ? | |]|];
          try (by destruct prev as [[]|]).
        rewrite (String.eqb_sym next_name name).
        destruct (String.eqb name next_name); by destruct prev as [[]|].
      - destruct prev as [[| prev_name ? | | |]|]; try done.
        by destruct (String.eqb prev_name name).
      - by destruct prev as [[]|].
      - by destruct prev as [[]|]. }
    specialize (IH (Some e)). cbn [head length]. lia.
Qed.

(** X6.  Every entry of the log is displayed: the resolved list has one
    element for each entry, except that a completed [tool] element stands for
    two.  So it is never longer than the log, never shorter than half of it,
    and it is empty only for the empty log. *)
Theorem resolved_length log :
  (length (resolveEntries log)
   + length (filter (λ r, is_paired r = true) (resolveEntries log)))%nat
  = length log
  ∧ (length (resolveEntries log) ≤ length log)%nat
  ∧ (length log ≤ 2 * length (resolveEntries log))%nat
  ∧ (resolveEntries log = [] ↔ log = []).
Proof.
  pose proof (resolved_sizes_from log None) as Hsize.
  rewrite <- resolveEntries_resolve_from in Hsize. cbn in Hsize.
  pose proof (length_filter (λ r, is_paired r = true) (resolveEntries log)).
  split_and!; [lia..|].
  split.
  - intros Hnil. rewrite Hnil in Hsize. cbn in Hsize.
    by destruct log.
  - by intros ->.
Qed.

Lemma length_append (a b : string) :
  String.length (a +:+ b) = (String.length a + String.length b)%nat.
Proof.
  induction a as [|ch a IH]; [done|].
  change (Datatypes.S (String.length (a +:+ b))
          = Datatypes.S (String.length a + String.length b)).
  by rewrite IH.
Qed.

Lemma cached_name_differs (name : string) :
  String.eqb (name +:+ " (cached)") name = false.
Proof.
  apply String.eqb_neq. intros Heq.
  apply (f_equal String.length) in Heq. rewrite length_append in Heq.
  cbn in Heq. lia.
Qed.

Lemma last_not_pairing log e :
  in_ToolResult e = false → pairs_with (last log) (head [e]) = false.
Proof.
  intros He. unfold pairs_with. cbn.
  destruct e; try discriminate; by destruct (last log) as [[]|].
Qed.

(** X7.  How a tool call shows up.  A [tool_executing] message adds one
    pending [tool] element to the resolved list and touches none of the
    elements before it; the [tool_result] of the same name that follows
    completes that element with the result and the error flag, again
    touching nothing else. *)
Theorem tool_call_completes now1 now2 st name arguments result is_error :
  let st1 := applyMessage now1 st (msg_tool_executing name arguments) in
  let st2 := applyMessage now2 st1 (msg_tool_result name result is_error) in
  resolveEntries (entries st1)
  = resolveEntries (entries st) ++ [r_tool name arguments None None]
  ∧ resolveEntries (entries st2)
    = resolveEntries (entries st)
        ++ [r_tool name arguments (Some result) (Some is_error)]
  ∧ phase st2 = "Tool: " +:+ name.
Proof.
  destruct st; cbn -[resolveEntries]. split_and!; [| |done].
  - rewrite resolveEntries_split by by apply last_not_pairing. done.
  - rewrite <- app_assoc. cbn [app].
    rewrite resolveEntries_split by by apply last_not_pairing.
    f_equal. rewrite resolveEntries_resolve_from. cbn.
    by rewrite String.eqb_refl.
Qed.

(** X8.  A [reasoning] message shows up as exactly one completed [think]
    element at the end of the resolved list, whatever the log held before,
    and empties the reasoning buffer that the [reasoning_delta] messages
    filled. *)
Theorem reasoning_shows_one_think now1 now2 now3 st d1 d2 text :
  let st1 := applyMessage now1 st (msg_reasoning_delta d1) in
  let st2 := applyMessage now2 st1 (msg_reasoning_delta d2) in
  let st3 := applyMessage now3 st2 (msg_reasoning text) in
  reasoningBuffer st2 = reasoningBuffer st +:+ (d1 +:+ d2)
  ∧ entries st2 = entries st
  ∧ reasoningBuffer st3 = EmptyString
  ∧ streamingBuffer st3 = streamingBuffer st
  ∧ resolveEntries (entries st3)
    = resolveEntries (entries st)
        ++ [r_tool "think" (JSON_stringify_reasoning text)
              (Some "ok") (Some false)].
Proof.
  destruct st; cbn -[resolveEntries]. split_and!; try done.
  - by rewrite append_assoc.
  - rewrite resolveEntries_split by by apply last_not_pairing. done.
Qed.

(** X9.  A cache hit is logged under the name [name (cached)], which is never
    the name of the tool: its element stays pending for good, and a
    [tool_result] of the tool that follows it is shown as an orphan. *)
Theorem cache_hit_never_completes now1 now2 st name arguments result is_error :
  let st1 := applyMessage now1 st (msg_tool_cache_hit name arguments) in
  let st2 := applyMessage now2 st1 (msg_tool_result name result is_error) in
  resolveEntries (entries st2)
  = resolveEntries (entries st)
      ++ [r_tool (name +:+ " (cached)") arguments None None;
          r_orphan_result name result is_error].
Proof.
  destruct st; cbn -[resolveEntries]. rewrite <- app_assoc. cbn [app].
  rewrite resolveEntries_split by by apply last_not_pairing.
  f_equal. rewrite resolveEntries_resolve_from. cbn.
  rewrite (String.eqb_sym name), cached_name_differs. done.
Qed.

End ResolverComposition.

(** * Further properties of the connection manager *)

Section ManagerRuns.

Implicit Types (m : Manager) (evs : list SocketEvent).

Lemma handleAll_cons m ev evs :
  handleAll m (ev :: evs) = handleAll (handle m ev) evs.
Proof. reflexivity. Qed.

Lemma state_handle m ev :
  state (handle m ev) = applyAll (state m) (decoded_frames [ev]).
Proof.
  destruct ev as [|now [msg|]| | |]; cbn; try done.
  - unfold onclose. by destruct (cancelled m).
  - unfold ontimeout, connect. cbn. by destruct (cancelled m).
Qed.

(** X10.  The agent state of the hook is the reducer folded over the frames
    that decoded, in arrival order: opens, closures, reconnect timers,
    undecodable frames and the teardown never touch it, so it survives every
    reconnection until a snapshot replaces it. *)
Theorem state_is_fold_of_frames m evs :
  state (handleAll m evs) = applyAll (state m) (decoded_frames evs).
Proof.
  revert m. induction evs as [|ev evs IH]; intros m; [done|].
  rewrite handleAll_cons, IH, state_handle.
  change (ev :: evs) with ([ev] ++ evs).
  unfold decoded_frames at 3. rewrite flat_map_app.
  unfold applyAll. by rewrite fold_left_app.
Qed.

Lemma backoff_shape_handle m ev : backoff_shape m → backoff_shape (handle m ev).
Proof.
  unfold backoff_shape. intros [Hretry Htimer].
  destruct ev as [|now [msg|]| | |]; cbn; try done.
  - split; [|done]. rewrite !elem_of_cons. lia.
  - unfold onclose. destruct (cancelled m); cbn; [done|].
    unfold MAX_RETRY_DELAY. rewrite !elem_of_cons, elem_of_nil in Hretry.
    split.
    + rewrite !elem_of_cons. lia.
    + intros d [= <-]. rewrite !elem_of_cons. lia.
  - unfold ontimeout, connect. cbn. by destruct (cancelled m).
Qed.

(** X11.  On every run of events from the mount the stored delay is one of
    1000, 2000, 4000, 8000, 16000 and 32000 ms, and a pending reconnect timer
    was scheduled with one of 1000, 2000, 4000, 8000 and 16000 ms: a
    reconnect is never scheduled sooner than one second or later than sixteen
    seconds after a closure. *)
Theorem backoff_always_bounded evs :
  retryDelayRef (handleAll mount evs) ∈ [1000; 2000; 4000; 8000; 16000; 32000]
  ∧ (∀ d, timeoutId (handleAll mount evs) = Some d →
       d ∈ [1000; 2000; 4000; 8000; 16000] ∧ 1000 <= d <= MAX_RETRY_DELAY).
Proof.
  assert (Hshape : backoff_shape (handleAll mount evs)).
  { assert (Hmount : backoff_shape mount).
    { split; [|done]. rewrite !elem_of_cons. cbn. lia. }
    revert Hmount. generalize mount.
    induction evs as [|ev evs IH]; intros m Hm; [done|].
    rewrite handleAll_cons. by apply IH, backoff_shape_handle. }
  destruct Hshape as [Hretry Htimer]. split; [done|].
  intros d Hd. specialize (Htimer d Hd). split; [done|].
  unfold MAX_RETRY_DELAY. rewrite !elem_of_cons, elem_of_nil in Htimer. lia.
Qed.

(** X12.  The teardown is final: whatever happens after it, the manager stays
    cancelled, no reconnect timer is pending, and no new socket is created. *)
Theorem teardown_is_final m evs :
  cancelled (handleAll (teardown m) evs) = true
  ∧ timeoutId (handleAll (teardown m) evs) = None
  ∧ wsRef (handleAll (teardown m) evs) ≠ Some CONNECTING.
Proof.
  assert (Hinv : ∀ evs m,
    cancelled m = true → timeoutId m = None → wsRef m ≠ Some CONNECTING →
    cancelled (handleAll m evs) = true
    ∧ timeoutId (handleAll m evs) = None
    ∧ wsRef (handleAll m evs) ≠ Some CONNECTING).
  { clear. induction evs as [|ev evs IH]; intros m Hc Ht Hw; [done|].
    rewrite handleAll_cons.
    destruct ev as [|now [msg|]| | |]; apply IH; cbn; try done.
    - by destruct (wsRef m).
    - unfold onclose. by rewrite Hc.
    - unfold onclose. by rewrite Hc.
    - unfold onclose. by rewrite Hc.
    - unfold ontimeout, connect. cbn. by rewrite Hc.
    - unfold ontimeout, connect. cbn. by rewrite Hc.
    - unfold ontimeout, connect. cbn. by rewrite Hc.
    - by destruct (wsRef m). }
  apply Hinv; cbn; [done..|]. by destruct (wsRef m).
Qed.

Lemma open_socket_handle m ev :
  (wsRef m = Some OPEN → connected m = true) →
  wsRef (handle m ev) = Some OPEN → connected (handle m ev) = true.
Proof.
  intros Hinv. destruct ev as [|now [msg|]| | |]; cbn; try done.
  - unfold onclose. by destruct (cancelled m).
  - unfold ontimeout, connect. cbn. by destruct (cancelled m).
  - by destruct (wsRef m).
Qed.

Lemma open_socket_run evs : ∀ m,
  (wsRef m = Some OPEN → connected m = true) →
  wsRef (handleAll m evs) = Some OPEN → connected (handleAll m evs) = true.
Proof.
  induction evs as [|ev evs IH]; intros m Hm; [done|].
  rewrite handleAll_cons. by apply IH, open_socket_handle.
Qed.

(** X13.  Outbound commands go out only through an open socket.  On every run
    from the mount a command that is handed to the socket is handed over
    unchanged and while [connected] is true; right after a closure or the
    teardown every command is dropped, and after a closure it stays that way
    until the next open. *)
Theorem commands_need_open_socket :
  (∀ evs msg sent,
     ws_send (handleAll mount evs) msg = Some sent →
     sent = msg ∧ connected (handleAll mount evs) = true)
  ∧ (∀ m msg, ws_send (onclose m) msg = None ∧ ws_send (teardown m) msg = None)
  ∧ (∀ m evs msg,
       forallb keeps_failing evs = true →
       ws_send (handleAll (onclose m) evs) msg = None).
Proof.
  split_and!.
  - intros evs msg sent Hsent.
    assert (Hinv : wsRef (handleAll mount evs) = Some OPEN
                   → connected (handleAll mount evs) = true)
      by by apply open_socket_run.
    unfold ws_send in Hsent.
    destruct (wsRef (handleAll mount evs)) as [[]|]; try discriminate.
    injection Hsent as <-. by split; [|apply Hinv].
  - intros m msg. unfold ws_send, onclose. split.
    + by destruct (cancelled m).
    + cbn. by destruct (wsRef m).
  - intros m evs msg Hrun. unfold ws_send.
    assert (Hclosed : wsRef (handleAll (onclose m) evs) ≠ Some OPEN).
    { assert (Hstart : wsRef (onclose m) ≠ Some OPEN)
        by (unfold onclose; by destruct (cancelled m)).
      revert Hstart Hrun. generalize (onclose m). clear m.
      induction evs as [|ev evs IH]; intros m Hm Hrun; [done|].
      cbn in Hrun. apply andb_true_iff in Hrun as [Hev Hrun].
      rewrite handleAll_cons. apply IH; [|done].
      destruct ev as [|now [frame|]| | |]; try discriminate; cbn; try done.
      - unfold onclose. by destruct (cancelled m).
      - unfold ontimeout, connect. cbn. by destruct (cancelled m). }
    by destruct (wsRef (handleAll (onclose m) evs)) as [[]|].
Qed.

End ManagerRuns.

(** * Further properties of the connection toast *)

Section ToastRuns.

Implicit Types (t : Toast) (evs : list ToastEvent).

Lemma toast_shape_mount c : toast_shape (observe toast_mount c).
Proof. destruct c; cbn; done. Qed.

Lemma toast_shape_rerender t c : toast_shape t → toast_shape (rerender t c).
Proof.
  unfold rerender. destruct (Bool.eqb_spec c (prevConnectedRef t)) as [|Hne];
    [done|].
  intros Hold. clear Hold. unfold toast_shape, observe, effect. cbn.
  destruct c, (prevConnectedRef t); cbn; try done.
  exists 2000. repeat split; try done; lia.
Qed.

Lemma toast_shape_elapse t (ms : N) :
  toast_shape t → toast_shape (elapse (Z.of_N ms) t).
Proof.
  unfold toast_shape, elapse.
  destruct (prevConnectedRef t) eqn:Hprev, (phaseRef t) eqn:Hphase;
    try done.
  - intros [Ht He]. rewrite Ht. cbn. rewrite He. by rewrite Hprev, Hphase.
  - intros (r & Hr & Ht & He). rewrite Ht. cbn.
    destruct (Z.leb_spec r (Z.of_N ms)); cbn; rewrite He;
      destruct (Z.leb_spec (r + 350) (Z.of_N ms)); cbn;
      rewrite ?Hprev, ?Hphase; try lia; try done.
    + exists (r + 350 - Z.of_N ms). repeat split; try done; lia.
    + exists (r - Z.of_N ms). repeat split; try done; try lia. f_equal. lia.
  - intros (r & Hr & Ht & He). rewrite Ht. cbn. rewrite He.
    destruct (Z.leb_spec r (Z.of_N ms)); cbn; rewrite ?Hprev, ?Hphase;
      [done|].
    exists (r - Z.of_N ms). repeat split; try done; lia.
  - intros [Ht He]. rewrite Ht. cbn. rewrite He. by rewrite Hprev, Hphase.
Qed.

Lemma toast_run_snoc c0 evs ev :
  toast_run c0 (evs ++ [ev]) = toast_step (toast_run c0 evs) ev.
Proof. unfold toast_run. by rewrite fold_left_app. Qed.

Lemma rendered_flag_snoc c0 evs ev :
  rendered_flag c0 (evs ++ [ev])
  = match ev with
    | te_render c => c
    | te_elapse _ => rendered_flag c0 evs
    end.
Proof. unfold rendered_flag. by rewrite fold_left_app. Qed.

Lemma prevConnectedRef_elapse ms t :
  prevConnectedRef (elapse ms t) = prevConnectedRef t.
Proof. unfold elapse. by repeat case_match. Qed.

Lemma toast_run_shape c0 evs :
  toast_shape (toast_run c0 evs)
  ∧ prevConnectedRef (toast_run c0 evs) = rendered_flag c0 evs.
Proof.
  induction evs as [|ev evs [IHshape IHflag]] using rev_ind.
  - split; [apply toast_shape_mount|by destruct c0].
  - rewrite toast_run_snoc, rendered_flag_snoc. destruct ev as [c|ms]; cbn.
    + split; [by apply toast_shape_rerender|].
      unfold rerender.
      destruct (Bool.eqb_spec c (prevConnectedRef (toast_run c0 evs)));
        [done|].
      unfold observe, effect. cbn.
      by destruct c, (prevConnectedRef (toast_run c0 evs)).
    + split; [by apply toast_shape_elapse|].
      by rewrite prevConnectedRef_elapse.
Qed.

(** X14.  Through every run of renders and delays the toast follows the
    connection: it shows "Reconnecting" exactly when the flag of the last
    render is disconnected, however much time has passed since, and it never
    shows "Connected" while that flag is disconnected. *)
Theorem toast_follows_connection c0 evs :
  (toast_view (toast_run c0 evs) = view_reconnecting
   ↔ rendered_flag c0 evs = false)
  ∧ (toast_view (toast_run c0 evs) = view_connected
     → rendered_flag c0 evs = true).
Proof.
  destruct (toast_run_shape c0 evs) as [Hshape <-].
  unfold toast_shape, toast_view in *.
  destruct (prevConnectedRef (toast_run c0 evs)),
    (phaseRef (toast_run c0 evs)); done.
Qed.

(** X15.  The "Connected" toast is transient: once the flag of the last
    render is connected, the toast is gone after 2350 ms without another
    render, wherever in its sequence it was. *)
Theorem connected_toast_is_transient c0 evs (ms : N) :
  rendered_flag c0 evs = true →
  2350 <= Z.of_N ms →
  phaseRef (toast_run c0 (evs ++ [te_elapse ms])) = hidden
  ∧ toast_view (toast_run c0 (evs ++ [te_elapse ms])) = view_none.
Proof.
  intros Hflag Hms. rewrite toast_run_snoc. cbn.
  destruct (toast_run_shape c0 evs) as [Hshape Hprev].
  rewrite Hflag in Hprev. unfold toast_view.
  assert (phaseRef (elapse (Z.of_N ms) (toast_run c0 evs)) = hidden) as ->;
    [|done].
  unfold toast_shape in Hshape. rewrite Hprev in Hshape. unfold elapse.
  destruct (phaseRef (toast_run c0 evs)) eqn:Hphase; try done.
  - destruct Hshape as [Ht He]. by rewrite Ht, He.
  - destruct Hshape as (r & Hr & Ht & He). rewrite Ht.
    destruct (Z.leb_spec r (Z.of_N ms)); [|lia]. cbn. rewrite He.
    by destruct (Z.leb_spec (r + 350) (Z.of_N ms)); [|lia].
  - destruct Hshape as (r & Hr & Ht & He). rewrite Ht. cbn. rewrite He.
    by destruct (Z.leb_spec r (Z.of_N ms)); [|lia].
Qed.

Lemma observe_changed_flag t c :
  c ≠ prevConnectedRef t →
  observe t c = rerender t c ∧ prevConnectedRef (observe t c) = c.
Proof.
  intros Hne. unfold rerender.
  destruct (Bool.eqb_spec c (prevConnectedRef t)); [done|].
  split; [done|]. unfold observe, effect. cbn.
  by destruct c, (prevConnectedRef t).
Qed.

Lemma toast_tracks_manager (sevs : list SocketEvent) : ∀ (m : Manager) t,
  prevConnectedRef t = connected m → toast_shape t →
  prevConnectedRef (fold_left observe (flags_seen m sevs) t)
  = connected (handleAll m sevs)
  ∧ toast_shape (fold_left observe (flags_seen m sevs) t).
Proof.
  induction sevs as [|ev sevs IH]; intros m t Hprev Hshape; [done|].
  cbn [flags_seen]. change (handleAll m (ev :: sevs))
    with (handleAll (handle m ev) sevs).
  destruct (Bool.eqb_spec (connected (handle m ev)) (connected m))
    as [Hsame|Hchanged].
  - apply IH; [congruence|done].
  - cbn [fold_left].
    destruct (observe_changed_flag t (connected (handle m ev)))
      as [Hobs Hflag]; [congruence|].
    apply IH; [done|]. rewrite Hobs. by apply toast_shape_rerender.
Qed.

(** X21.  Mounted on the page, the toast agrees with the hook: after every
    run of socket events it shows "Reconnecting" exactly when the hook's
    [connected] flag is false, and it shows "Connected" only when the flag is
    true. *)
Theorem toast_matches_hook (sevs : list SocketEvent) :
  (toast_view (toast_after sevs) = view_reconnecting
   ↔ connected (handleAll mount sevs) = false)
  ∧ (toast_view (toast_after sevs) = view_connected
     → connected (handleAll mount sevs) = true).
Proof.
  unfold toast_after. cbn [fold_left].
  destruct (toast_tracks_manager sevs mount
              (observe toast_mount (connected mount)))
    as [Hprev Hshape]; [done|apply toast_shape_mount|].
  rewrite <- Hprev. unfold toast_shape, toast_view in *.
  destruct (prevConnectedRef _), (phaseRef _); done.
Qed.

End ToastRuns.

(** * Properties of the log viewer *)

(** X16.  The level badges line up and tell the levels apart: every label is
    four characters wide and no two levels share one; a row is tinted exactly
    for errors and warnings. *)
Theorem level_badges (l1 l2 : LogLevel) :
  String.length (levelLabel l1) = 4%nat
  ∧ (levelLabel l1 = levelLabel l2 → l1 = l2)
  ∧ (is_Some (rowBg l1) ↔ l1 = Error ∨ l1 = Warn).
Proof.
  split_and!.
  - by destruct l1.
  - by destruct l1, l2.
  - destruct l1; cbn; split; try (intros [? [=]]); try (intros [[=]|[=]]);
      eauto.
Qed.

(** * Properties of the question modal *)

Section Modal.

Implicit Types (q : ActiveQuestionSnapshot) (m : QuestionModal).

(** X17.  With at least one choice and the cursor on a non-negative integer,
    the arrow keys keep the cursor on an index of a choice, moving it one
    step with wrap-around; from an index of a choice, down then up and up
    then down both return to it. *)
Theorem arrows_keep_cursor_in_range q m c :
  let count := Z.of_nat (length (choices (question q))) in
  cursor m = Some c → 0 <= c → 0 < count →
  cursor (handleKey q "ArrowDown" m).1 = Some ((c + 1) mod count)
  ∧ cursor (handleKey q "ArrowUp" m).1 = Some ((c - 1 + count) mod count)
  ∧ 0 <= (c + 1) mod count < count
  ∧ 0 <= (c - 1 + count) mod count < count
  ∧ (c < count →
     cursor (handleKey q "ArrowUp" (handleKey q "ArrowDown" m).1).1 = Some c
     ∧ cursor (handleKey q "ArrowDown" (handleKey q "ArrowUp" m).1).1
       = Some c).
Proof.
  intros count Hc Hpos Hcount.
  assert (Hdown : ∀ m' c', cursor m' = Some c' → 0 <= c' →
            cursor (handleKey q "ArrowDown" m').1 = Some ((c' + 1) mod count)).
  { intros m' c' Hm' Hc'. cbn. rewrite Hm'. cbn. fold count.
    destruct (Z.eqb_spec count 0); [lia|]. f_equal.
    apply Z.rem_mod_nonneg; lia. }
  assert (Hup : ∀ m' c', cursor m' = Some c' → 0 <= c' →
            cursor (handleKey q "ArrowUp" m').1
            = Some ((c' - 1 + count) mod count)).
  { intros m' c' Hm' Hc'. cbn. rewrite Hm'. cbn. fold count.
    destruct (Z.eqb_spec count 0); [lia|]. f_equal.
    apply Z.rem_mod_nonneg; lia. }
  pose proof (Z.mod_pos_bound (c + 1) count Hcount).
  pose proof (Z.mod_pos_bound (c - 1 + count) count Hcount).
  split_and!; [by apply Hdown|by apply Hup|lia..|].
  intros Hlt. split.
  - rewrite (Hup _ ((c + 1) mod count)); [|by apply Hdown|lia].
    f_equal. destruct (decide (c + 1 = count)) as [Heq|Hne].
    + rewrite Heq, Z_mod_same_full. rewrite Z.mod_small by lia. lia.
    + rewrite (Z.mod_small (c + 1)) by lia.
      replace (c + 1 - 1 + count) with (c + 1 * count) by lia.
      rewrite Z.mod_add by lia. by rewrite Z.mod_small by lia.
  - rewrite (Hdown _ ((c - 1 + count) mod count)); [|by apply Hup|lia].
    f_equal. destruct (decide (c = 0)) as [->|Hne].
    + rewrite (Z.mod_small (0 - 1 + count)) by lia.
      replace (0 - 1 + count + 1) with count by lia.
      apply Z_mod_same_full.
    + replace (c - 1 + count) with (c - 1 + 1 * count) by lia.
      rewrite Z.mod_add by lia. rewrite (Z.mod_small (c - 1)) by lia.
      replace (c - 1 + 1) with c by lia. by rewrite Z.mod_small by lia.
Qed.

(** X18.  The keyboard only ever answers with a choice that exists.  A key
    press that sends a response leaves the modal state as it was, and
    happens only with an outstanding question outside the edit mode; the
    response is [Skipped] for Escape, or, for Enter on a question that is not
    editable, [Selected] with the cursor, which is then the index of one of
    the choices.  No other key and no other situation sends anything. *)
Theorem keyboard_answers_exist active key m m' response :
  keydown active key m = (m', Some response) →
  m' = m
  ∧ ∃ q, active = Some q ∧ done q = false ∧ editing m = false
    ∧ ((key = "Escape" ∧ response = Skipped)
       ∨ (key = "Enter" ∧ editable (question q) = false
          ∧ ∃ c choice,
              cursor m = Some c ∧ response = Selected c
              ∧ choices (question q) !! Z.to_nat c = Some choice
              ∧ 0 <= c < Z.of_nat (length (choices (question q))))).
Proof.
  unfold keydown. destruct active as [q|]; [|discriminate].
  destruct (done q) eqn:Hdone; [discriminate|].
  destruct (editing m) eqn:Hedit; [discriminate|]. cbn [orb].
  unfold handleKey.
  destruct (String.eqb_spec key "ArrowUp"); [discriminate|].
  destruct (String.eqb_spec key "k"); [discriminate|].
  destruct (String.eqb_spec key "ArrowDown"); [discriminate|].
  destruct (String.eqb_spec key "j"); [discriminate|]. cbn [orb].
  destruct (String.eqb_spec key "Enter") as [->|].
  - destruct (cursor m) as [c|] eqn:Hcursor; [|discriminate]. cbn.
    destruct (js_index (choices (question q)) c) as [choice|] eqn:Hchoice;
      [|discriminate].
    destruct (editable (question q)) eqn:Heditable; [discriminate|].
    intros [= <- <-]. split; [done|].
    exists q. split_and!; [done..|]. right. split_and!; [done..|].
    exists c, choice. unfold js_index in Hchoice.
    destruct (Z.ltb_spec c 0); [discriminate|].
    pose proof (lookup_lt_Some _ _ _ Hchoice). split_and!; [done..|lia|lia].
  - destruct (String.eqb_spec key "Escape") as [->|]; [|discriminate].
    intros [= <- <-]. split; [done|]. exists q. split_and!; [done..|].
    by left.
Qed.

(** X19.  Enter on an editable question never sends anything: it opens the
    edit mode on the text of the choice under the cursor and leaves the
    cursor where it is; with the cursor on no choice, Enter does nothing. *)
Theorem enter_opens_editor q m :
  editable (question q) = true →
  (handleKey q "Enter" m).2 = None
  ∧ cursor (handleKey q "Enter" m).1 = cursor m
  ∧ (∀ c choice,
       cursor m = Some c → js_index (choices (question q)) c = Some choice →
       editing (handleKey q "Enter" m).1 = true
       ∧ editText (handleKey q "Enter" m).1 = body choice)
  ∧ (cursor m ≫= js_index (choices (question q)) = None →
     handleKey q "Enter" m = (m, None)).
Proof.
  intros Heditable. cbn. rewrite Heditable.
  split_and!.
  - by destruct (cursor m ≫= js_index (choices (question q))).
  - by destruct (cursor m ≫= js_index (choices (question q))).
  - intros c choice -> Hchoice. cbn. by rewrite Hchoice.
  - by intros ->.
Qed.

(** X20.  The adjustment made while rendering settles at once: applying it
    again changes nothing, it leaves the recorded prompt equal to the prompt
    of the outstanding question, and it resets the cursor and the edit mode
    only when that prompt differs from the recorded one, so a question that
    replaces another with the same prompt keeps the cursor. *)
Theorem sync_settles active m :
  sync active (sync active m) = sync active m
  ∧ prevPrompt (sync active m) = currentPrompt active
  ∧ (currentPrompt active = prevPrompt m → sync active m = m)
  ∧ (currentPrompt active ≠ prevPrompt m → is_Some (currentPrompt active) →
     cursor (sync active m) = Some 0
     ∧ editing (sync active m) = false
     ∧ editText (sync active m) = EmptyString).
Proof.
  assert (Hprev : prevPrompt (sync active m) = currentPrompt active).
  { unfold sync. destruct (decide _) as [Heq|Hne]; [done|].
    by destruct (currentPrompt active). }
  split_and!.
  - unfold sync at 1. rewrite Hprev. by rewrite decide_True.
  - done.
  - intros Heq. unfold sync. by rewrite decide_True.
  - intros Hne [p Hp]. unfold sync. rewrite decide_False by done.
    by rewrite Hp.
Qed.

End Modal.

(** * Concrete runs of the further properties *)

Lemma token_totals_accumulate_witness :
  exact_token_sums INITIAL_STATE
    [("09:00:00", msg_token_usage 100 20); ("09:00:05", msg_token_usage 100 20)]
  ∧ totalPromptTokens
      (applyAll INITIAL_STATE
         [("09:00:00", msg_token_usage 100 20);
          ("09:00:05", msg_token_usage 100 20)])
    = 200
  ∧ totalCompletionTokens
      (applyAll INITIAL_STATE
         [("09:00:00", msg_token_usage 100 20);
          ("09:00:05", msg_token_usage 100 20)])
    = 40.
Proof.
  assert (Hexact : exact_token_sums INITIAL_STATE
    [("09:00:00", msg_token_usage 100 20);
     ("09:00:05", msg_token_usage 100 20)]).
  { cbn. unfold safe_integer. repeat split; cbn; lia. }
  split; [exact Hexact|].
  exact (token_totals_accumulate INITIAL_STATE _ Hexact).
Defined.

Lemma logs_append_only_witness :
  Forall (λ frame : string * WsServerMessage, is_snapshot frame.2 = false)
    [("09:00:00", msg_eviction 120 3); ("09:00:01", msg_text "hello")]
  ∧ (∃ added,
       logs (applyAll INITIAL_STATE
               [("09:00:00", msg_eviction 120 3); ("09:00:01", msg_text "hello")])
       = logs INITIAL_STATE ++ added
       ∧ length added = 1%nat).
Proof.
  split; [by repeat constructor|].
  destruct (logs_append_only INITIAL_STATE
              [("09:00:00", msg_eviction 120 3); ("09:00:01", msg_text "hello")])
    as (added & Hlogs & Hlen); [by repeat constructor|].
  exists added. split; [exact Hlogs|exact Hlen].
Defined.

Lemma todo_at_most_one_witness :
  Forall (λ frame : string * WsServerMessage, is_snapshot frame.2 = false)
    [("09:00:00", msg_todo_update "draft"); ("09:00:01", msg_text "hello");
     ("09:00:02", msg_todo_update "final")]
  ∧ (todo_count (entries INITIAL_STATE) ≤ 1)%nat
  ∧ (todo_count
       (entries (applyAll INITIAL_STATE
                   [("09:00:00", msg_todo_update "draft");
                    ("09:00:01", msg_text "hello");
                    ("09:00:02", msg_todo_update "final")])) ≤ 1)%nat.
Proof.
  assert (Hframes :
    Forall (λ frame : string * WsServerMessage, is_snapshot frame.2 = false)
      [("09:00:00", msg_todo_update "draft"); ("09:00:01", msg_text "hello");
       ("09:00:02", msg_todo_update "final")]) by by repeat constructor.
  assert (Hstart : (todo_count (entries INITIAL_STATE) ≤ 1)%nat)
    by (cbn; lia).
  split_and!; [exact Hframes|exact Hstart|].
  exact (todo_at_most_one INITIAL_STATE _ Hframes Hstart).
Defined.

Lemma only_snapshot_restarts_witness :
  Forall (λ frame : string * WsServerMessage, is_snapshot frame.2 = false)
    [("09:00:01", msg_text "late"); ("09:00:02", msg_phase "Working")]
  ∧ running
      (applyAll (applyMessage "09:00:00" INITIAL_STATE msg_finished)
         [("09:00:01", msg_text "late"); ("09:00:02", msg_phase "Working")])
    = false.
Proof.
  assert (Hframes :
    Forall (λ frame : string * WsServerMessage, is_snapshot frame.2 = false)
      [("09:00:01", msg_text "late"); ("09:00:02", msg_phase "Working")])
    by by repeat constructor.
  split; [exact Hframes|].
  exact (proj2 (proj2 (proj2
           (only_snapshot_restarts INITIAL_STATE _ Hframes))) "09:00:00").
Defined.

Lemma resolver_is_local_witness :
  pairs_with (last [ToolExecuting "grep" "{}"; ToolResult "grep" "ok" false])
    (head [Text "done"]) = false
  ∧ resolveEntries
      ([ToolExecuting "grep" "{}"; ToolResult "grep" "ok" false]
         ++ [Text "done"])
    = resolveEntries [ToolExecuting "grep" "{}"; ToolResult "grep" "ok" false]
        ++ resolveEntries [Text "done"].
Proof.
  split; [reflexivity|].
  apply (proj1 (resolver_is_local
                  [ToolExecuting "grep" "{}"; ToolResult "grep" "ok" false]
                  [Text "done"])).
  reflexivity.
Defined.

Lemma commands_need_open_socket_witness :
  ws_send (handleAll mount [ev_timeout; ev_open]) cm_quit = Some cm_quit
  ∧ connected (handleAll mount [ev_timeout; ev_open]) = true.
Proof.
  split; [reflexivity|].
  apply (proj1 commands_need_open_socket [ev_timeout; ev_open]
           cm_quit cm_quit).
  reflexivity.
Defined.

Lemma connected_toast_is_transient_witness :
  rendered_flag false [te_render true; te_elapse 100%N] = true
  ∧ 2350 <= Z.of_N 2350%N
  ∧ phaseRef
      (toast_run false
         ([te_render true; te_elapse 100%N] ++ [te_elapse 2350%N]))
    = hidden.
Proof.
  assert (Hms : 2350 <= Z.of_N 2350%N) by (cbn; lia).
  split_and!; [reflexivity|exact Hms|].
  exact (proj1 (connected_toast_is_transient false
                  [te_render true; te_elapse 100%N] 2350%N eq_refl Hms)).
Defined.

Lemma arrows_keep_cursor_in_range_witness :
  cursor modal_mount = Some 0
  ∧ cursor (handleKey pick_one "ArrowUp" modal_mount).1 = Some 2.
Proof.
  split; [reflexivity|].
  assert (Hpos : 0 <= 0) by lia.
  assert (Hcount : 0 < Z.of_nat (length (choices (question pick_one))))
    by (cbn; lia).
  exact (proj1 (proj2 (arrows_keep_cursor_in_range pick_one modal_mount 0
                         eq_refl Hpos Hcount))).
Defined.

Lemma keyboard_answers_exist_witness :
  keydown (Some pick_one) "Enter" modal_mount
  = (modal_mount, Some (Selected 0))
  ∧ editing modal_mount = false.
Proof.
  split; [reflexivity|].
  destruct (keyboard_answers_exist (Some pick_one) "Enter" modal_mount
              modal_mount (Selected 0) eq_refl)
    as (_ & q & _ & _ & Hedit & _).
  exact Hedit.
Defined.

Lemma enter_opens_editor_witness :
  editable (question edit_one) = true
  ∧ (handleKey edit_one "Enter" modal_mount).2 = None.
Proof.
  split; [reflexivity|].
  exact (proj1 (enter_opens_editor edit_one modal_mount eq_refl)).
Defined.

Lemma sync_settles_witness :
  is_Some (currentPrompt (Some pick_one))
  ∧ cursor (sync (Some pick_one) (setCursor (Some 2) modal_mount)) = Some 0.
Proof.
  assert (Hsome : is_Some (currentPrompt (Some pick_one))) by by eexists.
  split; [exact Hsome|].
  apply (proj2 (proj2 (proj2
           (sync_settles (Some pick_one) (setCursor (Some 2) modal_mount)))));
    [discriminate|exact Hsome].
Defined.
